(** * PERMANOVA pseudo-F statistic (skbio/stats/distance/_permanova.py)

    A shallow embedding of [permanova], [_compute_f_stat],
    [_index_combinations] and of the deprecated [PERMANOVA] class, with the
    numpy operations they use written out on lists.

    Numbers.  Python [int]s are [Z]; array positions and sizes are [nat],
    as [np.where], [np.triu_indices], [len] and [shape] never give a
    negative one.  An [np.float64] is an IEEE 754 binary64 number, the
    primitive [float] of the kernel: [+], [-], [*], [/] and [<=?] below are
    the machine's operations, which round to the nearest even, overflow to
    an infinity and underflow through the subnormal numbers to a zero. *)

From Stdlib Require Import ZArith QArith Lia Permutation Floats Uint63.
From stdpp Require Import base tactics option list strings.

Local Open Scope Z_scope.

(** ** Exceptions *)

Inductive value_error : Type :=
  | GroupingSizeMismatch
  | InsufficientGroups
  | NegativePermutations
  | NegativeElements.

Inductive exn : Type :=
  | IndexError
  | ZeroDivisionError
  | ValueError (why : value_error).

Inductive result (A : Type) : Type :=
  | Ok (a : A)
  | Raise (e : exn).
Arguments Ok {A} a.
Arguments Raise {A} e.

#[global] Instance result_ret : MRet result := fun A a => Ok a.
#[global] Instance result_bind : MBind result := fun A B f m =>
  match m with
  | Ok a => f a
  | Raise e => Raise e
  end.

(** A Python [for] loop whose body may raise: the state is threaded through
    the iterations, the first exception ends the loop. *)
Fixpoint for_each {A S : Type} (body : S → A → result S) (xs : list A) (s : S)
  : result S :=
  match xs with
  | [] => Ok s
  | x :: xs' => s' ← body s x; for_each body xs' s'
  end.

Fixpoint traverse {A B : Type} (f : A → result B) (xs : list A)
  : result (list B) :=
  match xs with
  | [] => Ok []
  | x :: xs' => y ← f x; ys ← traverse f xs'; Ok (y :: ys)
  end.

(** ** float64 *)

Abbreviation float64 := PrimFloat.float.

(** A Python [int] or an [np.int64] that meets a float64 in an arithmetic
    operation is converted to the nearest float64; the conversion is
    written for integers below 2^63 in absolute value, which every size
    and count of an array is. *)
Definition of_int (z : Z) : float64 :=
  if 0 <=? z then PrimFloat.of_uint63 (Uint63.of_Z z)
  else (- PrimFloat.of_uint63 (Uint63.of_Z (- z)))%float.

(** ** np.sum

    numpy adds the entries of a contiguous one-dimensional float64 array
    pairwise: fewer than eight entries are added from left to right; up to
    [PW_BLOCKSIZE] entries are added in eight interleaved accumulators, which
    are added up as a balanced tree before the last [n mod 8] entries join
    one by one; a longer array is cut in two near its middle, at a multiple
    of eight.  The reduction starts from the identity 0. *)

Definition PW_BLOCKSIZE : nat := 128.

(** The loop [for (i = 8; i < n - n % 8; i += 8) r[k] += a[i + k]]: the
    accumulators after the rows of eight, and the entries left over. *)
Fixpoint unrolled_rows (rows : nat) (r xs : list float64)
  : list float64 * list float64 :=
  match rows with
  | O => (r, xs)
  | S rows' =>
      if decide (8 ≤ length xs)%nat
      then unrolled_rows rows' (zip_with PrimFloat.add r (take 8 xs)) (drop 8 xs)
      else (r, xs)
  end.

(** [((r[0] + r[1]) + (r[2] + r[3])) + ((r[4] + r[5]) + (r[6] + r[7]))] *)
Definition sum_accumulators (r : list float64) : float64 :=
  match r with
  | [r0; r1; r2; r3; r4; r5; r6; r7] =>
      (((r0 + r1) + (r2 + r3)) + ((r4 + r5) + (r6 + r7)))%float
  | _ => foldl PrimFloat.add 0%float r
  end.

(** The branch for 8 <= n <= PW_BLOCKSIZE. *)
Definition sum_block (xs : list float64) : float64 :=
  let '(r, rest) := unrolled_rows (length xs / 8) (take 8 xs) (drop 8 xs) in
  foldl PrimFloat.add (sum_accumulators r) rest.

(** [depth] bounds the halvings; the length of the array is enough. *)
Fixpoint pairwise_sum (depth : nat) (xs : list float64) : float64 :=
  let n := length xs in
  if decide (n < 8)%nat then foldl PrimFloat.add 0%float xs
  else if decide (n ≤ PW_BLOCKSIZE)%nat then sum_block xs
  else
    match depth with
    | O => sum_block xs
    | S depth' =>
        let n2 := (n / 2 - (n / 2) mod 8)%nat in
        (pairwise_sum depth' (take n2 xs) + pairwise_sum depth' (drop n2 xs))%float
    end.

(** [xs.sum()] *)
Definition np_sum (xs : list float64) : float64 :=
  (0 + pairwise_sum (length xs) xs)%float.

(** [(xs ** 2).sum()]: numpy squares a float64 by multiplying it with
    itself. *)
Definition sum_sq (xs : list float64) : float64 :=
  np_sum (map (fun x => x * x)%float xs).

(** ** numpy on lists *)

Abbreviation matrix := (list (list Z)).

(** [-1 * np.ones(shape, dtype=int)] *)
Definition minus_ones (shape : nat * nat) : matrix :=
  replicate shape.1 (replicate shape.2 (-1)).

(** [np.where(grouping == v)[0]]: the positions holding [v], increasing. *)
Definition np_where_eq (grouping : list Z) (v : Z) : list nat :=
  filter (fun i => grouping !! i = Some v) (seq 0 (length grouping)).

(** [np.tile(l, n)]: [n] copies of the whole array, one after the other. *)
Definition np_tile {A : Type} (l : list A) (n : nat) : list A :=
  concat (replicate n l).

(** [np.repeat(l, n)]: every element [n] times in a row. *)
Definition np_repeat {A : Type} (l : list A) (n : nat) : list A :=
  flat_map (replicate n) l.

(** Two 1-D index arrays used together are broadcast against each other:
    equal lengths pair up position by position, an array of length one is
    stretched, anything else is an IndexError. *)
Definition broadcast2 (I J : list nat) : result (list (nat * nat)) :=
  if decide (length I = length J) then Ok (zip I J)
  else match I, J with
       | [i], _ => Ok (map (pair i) J)
       | _, [j] => Ok (map (fun i => (i, j)) I)
       | _, _ => Raise IndexError
       end.

Definition get_cell (M : matrix) (rc : nat * nat) : result Z :=
  match M !! rc.1 with
  | Some row =>
      match row !! rc.2 with
      | Some v => Ok v
      | None => Raise IndexError
      end
  | None => Raise IndexError
  end.

Definition set_cell (v : Z) (M : matrix) (rc : nat * nat) : result matrix :=
  match M !! rc.1 with
  | Some row =>
      if decide (rc.2 < length row)%nat
      then Ok (<[rc.1 := <[rc.2 := v]> row]> M)
      else Raise IndexError
  | None => Raise IndexError
  end.

(** [M[(I, J)]] *)
Definition getitem (M : matrix) (idx : list nat * list nat) : result (list Z) :=
  ps ← broadcast2 idx.1 idx.2; traverse (get_cell M) ps.

(** [M[(I, J)] = v] *)
Definition setitem (M : matrix) (idx : list nat * list nat) (v : Z)
  : result matrix :=
  ps ← broadcast2 idx.1 idx.2; for_each (set_cell v) ps M.

(** [xs[mask]] with a boolean mask; the lengths must agree. *)
Definition mask_select {A : Type} (xs : list A) (mask : list bool)
  : result (list A) :=
  if decide (length mask = length xs)
  then Ok (map fst (filter (fun xb => xb.2 = true) (zip xs mask)))
  else Raise IndexError.

(** [group_sizes[i]] for a position [i >= 0]. *)
Definition index_at (xs : list Z) (i : nat) : result Z :=
  match xs !! i with
  | Some v => Ok v
  | None => Raise IndexError
  end.

(** ** The procedural interface *)

Definition _index_combinations (indices : list nat) : list nat * list nat :=
  (np_tile indices (length indices), np_repeat indices (length indices)).

(** Lines 116-120: the matrix of -1 in which each group's block is
    overwritten with the group index. *)
Definition grouping_matrix_of (shape : nat * nat) (num_groups : nat)
    (grouping : list Z) : result matrix :=
  for_each
    (fun grouping_matrix group_idx =>
       let within_indices :=
         _index_combinations (np_where_eq grouping (Z.of_nat group_idx)) in
       setitem grouping_matrix within_indices (Z.of_nat group_idx))
    (seq 0 num_groups)
    (minus_ones shape).

(** Lines 127-129: [s_W], starting from the Python integer 0. *)
Definition within_group_ss (num_groups : nat) (distances : list float64)
    (group_sizes : list Z) (grouping_tri : list Z) : result float64 :=
  for_each
    (fun s_W i =>
       sel ← mask_select distances
               (map (fun g => bool_decide (g = Z.of_nat i)) grouping_tri);
       size ← index_at group_sizes i;
       Ok (s_W + sum_sq sel / of_int size)%float)
    (seq 0 num_groups)
    (of_int 0).

(** Lines 131-132, for non-negative sizes and an [np.float64] [s_T], which
    is what [permanova] passes.  [s_W] is still a Python [int] only when the
    loop ran zero times, and then [s_W / (sample_size - num_groups)] is
    Python's own division, which raises on a zero divisor; every other
    division is numpy's, which gives an infinity or nan instead. *)
Definition f_ratio (sample_size num_groups : nat) (s_T s_W : float64)
  : result float64 :=
  let s_A := (s_T - s_W)%float in
  if decide (num_groups = 0%nat ∧ sample_size = 0%nat)
  then Raise ZeroDivisionError
  else Ok ((s_A / of_int (Z.of_nat num_groups - 1))
           / (s_W / of_int (Z.of_nat sample_size - Z.of_nat num_groups)))%float.

Definition _compute_f_stat (sample_size num_groups : nat)
    (tri_idxs : list nat * list nat) (distances : list float64)
    (group_sizes : list Z) (s_T : float64) (grouping : list Z)
  : result float64 :=
  grouping_matrix ←
    grouping_matrix_of (sample_size, sample_size) num_groups grouping;
  grouping_tri ← getitem grouping_matrix tri_idxs;
  s_W ← within_group_ss num_groups distances group_sizes grouping_tri;
  f_ratio sample_size num_groups s_T s_W.

(** ** The deprecated class *)

Module PERMANOVA.

(** The attributes of an instance that [_run] and [_compute_f_stat] read.
    [__init__] and the base class [CategoricalStats], which is not part of
    the sources at hand, fill them in; here they are given. *)
Record self_t (label : Type) : Type := Build_self {
  _dm_shape : nat * nat;
  _groups : list label;
  _tri_idxs : list nat * list nat;
  _distances : list float64;
  _group_sizes : list Z;
  _num_groups : nat;
  _s_T : float64
}.
Arguments Build_self {label}.
Arguments _dm_shape {label}.
Arguments _groups {label}.
Arguments _tri_idxs {label}.
Arguments _distances {label}.
Arguments _group_sizes {label}.
Arguments _num_groups {label}.
Arguments _s_T {label}.

Definition _index_combinations (indices : list nat) : list nat * list nat :=
  (np_tile indices (length indices), np_repeat indices (length indices)).

Definition _compute_f_stat {label : Type} (self : self_t label)
    (grouping_tri : list Z) : result float64 :=
  let a := _num_groups self in
  let N := (_dm_shape self).1 in
  s_W ← for_each
          (fun s_W i =>
             sel ← mask_select (_distances self)
                     (map (fun g => bool_decide (g = Z.of_nat i)) grouping_tri);
             size ← index_at (_group_sizes self) i;
             Ok (s_W + sum_sq sel / of_int size)%float)
          (seq 0 a)
          (of_int 0);
  let s_A := (_s_T self - s_W)%float in
  if decide (a = 0%nat ∧ N = 0%nat)
  then Raise ZeroDivisionError
  else Ok ((s_A / of_int (Z.of_nat a - 1))
           / (s_W / of_int (Z.of_nat N - Z.of_nat a)))%float.

Definition _run {label : Type} (self : self_t label) (grouping : list Z)
  : result float64 :=
  grouping_matrix ←
    for_each
      (fun grouping_matrix group_idx =>
         let within_indices :=
           _index_combinations (np_where_eq grouping (Z.of_nat group_idx)) in
         setitem grouping_matrix within_indices (Z.of_nat group_idx))
      (seq 0 (length (_groups self)))
      (minus_ones (_dm_shape self));
  grouping_tri ← getitem grouping_matrix (_tri_idxs self);
  _compute_f_stat self grouping_tri.

End PERMANOVA.

(** ** Collaborators *)

(** [np.triu_indices(n, k=1)]: the positions above the diagonal, row by
    row. *)
Definition triu_pairs (n : nat) : list (nat * nat) :=
  flat_map (fun i => map (pair i) (seq (S i) (n - S i))) (seq 0 n).

Definition triu_indices (n : nat) : list nat * list nat :=
  (map fst (triu_pairs n), map snd (triu_pairs n)).

(** How many entries of [xs] are [v]. *)
Definition group_count (xs : list Z) (v : nat) : Z :=
  Z.of_nat (length (filter (fun x => x = Z.of_nat v) xs)).

(** [np.bincount(xs)]: how often each of 0..max(xs) occurs; negative
    entries are refused. *)
Definition np_bincount (xs : list Z) : result (list Z) :=
  if decide (Forall (fun x => 0 ≤ x) xs)
  then
    let bins := match xs with
                | [] => 0%nat
                | _ => S (Z.to_nat (foldr Z.max 0 xs))
                end in
    Ok (map (group_count xs) (seq 0 bins))
  else Raise (ValueError NegativeElements).

(** Modelled from the spec: the [DistanceMatrix] class is not part of the
    sources at hand; sections 3 and 6 expose what the procedure reads of
    it, the shape and the condensed form (the entries above the diagonal,
    row by row). *)
Record DistanceMatrix : Type := Build_DistanceMatrix {
  shape : nat * nat;
  condensed_form : list float64
}.

(** Modelled from the spec: the p-value of section 4.3, [np.nan] when no
    permutation is asked for and the ratio (count + 1) / (permutations + 1)
    otherwise, kept as the fraction it is. *)
Inductive p_value_t : Type :=
  | Fin (q : Q)
  | NaN.

(** Modelled from the spec: the labelled record of section 6 that the
    caller receives, built by [_build_results]. *)
Record Results : Type := Build_Results {
  method_name : string;
  test_statistic_name : string;
  res_sample_size : nat;
  number_of_groups : nat;
  test_statistic : float64;
  p_value : p_value_t;
  number_of_permutations : Z
}.

(** Modelled from the spec: [_build_results] of skbio/stats/distance/_base.py
    is not part of the sources at hand; section 4.4 makes it the plain
    assembly of its seven arguments into one labelled record. *)
Definition _build_results (method stat_name : string) (sample_size num_groups : nat)
    (stat : float64) (p : p_value_t) (permutations : Z) : Results :=
  Build_Results method stat_name sample_size num_groups stat p permutations.

Section Preprocessing.
Context {label : Type} `{EqDecision label}.

(** The code of a label is its position among the distinct labels. *)
Definition encode (groups : list label) (x : label) : Z :=
  match list_find (fun y => y = x) groups with
  | Some (i, _) => Z.of_nat i
  | None => -1
  end.

(** Modelled from the spec: [_preprocess_input] of
    skbio/stats/distance/_base.py is not part of the sources at hand.
    Section 4.1, for a grouping given directly as a vector: the grouping
    must have one entry per object; every distinct label gets a code in
    0..num_groups-1; fewer than two distinct labels is an error; the result
    is (sample_size, num_groups, integer grouping, tri_idxs, condensed
    distances). *)
Definition _preprocess_input (distance_matrix : DistanceMatrix)
    (grouping : list label)
  : result (nat * nat * list Z * (list nat * list nat) * list float64) :=
  let sample_size := (shape distance_matrix).1 in
  if decide (length grouping = sample_size) then
    let groups := remove_dups grouping in
    let num_groups := length groups in
    if decide (num_groups < 2)%nat
    then Raise (ValueError InsufficientGroups)
    else Ok (sample_size, num_groups, map (encode groups) grouping,
             triu_indices sample_size, condensed_form distance_matrix)
  else Raise (ValueError GroupingSizeMismatch).
End Preprocessing.

(** ** The permutation test *)

(** [(count + 1) / (permutations + 1)] *)
Definition p_value_of (count : nat) (permutations : Z) : Q :=
  (inject_Z (Z.of_nat count + 1) / inject_Z (permutations + 1))%Q.

Section Engine.
(** The source of randomness: [rng k g] is the [k]-th shuffled copy of
    [g] drawn during one call. *)
Variable rng : nat → list Z → list Z.

(** The statistic of every permuted grouping, trial by trial. *)
Definition permuted_stats (test_stat_function : list Z → result float64)
    (grouping : list Z) (permutations : Z) : result (list float64) :=
  traverse (fun k => test_stat_function (rng k grouping))
           (seq 0 (Z.to_nat permutations)).

(** How many permuted statistics are [>=] the observed one; a comparison
    with nan is false. *)
Definition count_ge (perm_stats : list float64) (stat : float64) : nat :=
  length (filter (fun s => (stat <=? s)%float = true) perm_stats).

(** Modelled from the spec: [_run_stat_method] of
    skbio/stats/distance/_base.py is not part of the sources at hand.
    Section 4.3: a negative count is an error (section 7: found before any
    statistic is computed); the observed statistic is the function at the
    grouping as given; zero permutations give (observed, NaN) without a
    trial; otherwise every trial shuffles the grouping and evaluates the
    function, and p = (count + 1) / (permutations + 1). *)
Definition _run_stat_method (test_stat_function : list Z → result float64)
    (grouping : list Z) (permutations : Z) : result (float64 * p_value_t) :=
  if decide (permutations < 0) then Raise (ValueError NegativePermutations)
  else
    stat ← test_stat_function grouping;
    if decide (permutations = 0) then Ok (stat, NaN)
    else
      perm_stats ← permuted_stats test_stat_function grouping permutations;
      Ok (stat, Fin (p_value_of (count_ge perm_stats stat) permutations)).

(** Lines 94-107, for a grouping given directly ([column=None]). *)
Definition permanova {label : Type} `{EqDecision label}
    (distance_matrix : DistanceMatrix) (grouping : list label)
    (permutations : Z) : result Results :=
  pre ← _preprocess_input distance_matrix grouping;
  let '(sample_size, num_groups, grouping, tri_idxs, distances) := pre in
  group_sizes ← np_bincount grouping;
  let s_T := (sum_sq distances / of_int (Z.of_nat sample_size))%float in
  let test_stat_function :=
    _compute_f_stat sample_size num_groups tri_idxs distances group_sizes s_T in
  sp ← _run_stat_method test_stat_function grouping permutations;
  Ok (_build_results "PERMANOVA" "pseudo-F" sample_size num_groups
        sp.1 sp.2 permutations).
End Engine.

(** ** Specification-level notions *)

(** The entry of a matrix, if the position exists. *)
Definition cell (M : matrix) (r c : nat) : option Z :=
  row ← M !! r; row !! c.

Definition dims (M : matrix) (nr nc : nat) : Prop :=
  length M = nr ∧ Forall (fun row => length row = nc) M.

(** What the grouping matrix is meant to hold for the objects [rc.1] and
    [rc.2]: their common group code when they share one of the codes
    0..a-1, and -1 otherwise. *)
Definition pair_code (a : nat) (grouping : list Z) (rc : nat * nat) : Z :=
  match grouping !! rc.1, grouping !! rc.2 with
  | Some g, Some h => if decide (g = h ∧ 0 ≤ g < Z.of_nat a) then g else -1
  | _, _ => -1
  end.

(** The condensed distances of the pairs of objects that share code [i]. *)
Definition within_distances (a : nat) (grouping : list Z)
    (tri_idxs : list nat * list nat) (distances : list float64) (i : nat)
  : list float64 :=
  map fst (filter (fun dp => pair_code a grouping dp.2 = Z.of_nat i)
                  (zip distances (zip tri_idxs.1 tri_idxs.2))).

(** The distances whose aligned entry of the extracted triangle is [i]. *)
Definition selected_distances (distances : list float64)
    (grouping_tri : list Z) (i : nat) : list float64 :=
  map fst (filter (fun dg => dg.2 = Z.of_nat i) (zip distances grouping_tri)).

(** The term of one group in the within-group sum of squares: the squared
    distances of the pairs carrying the code, summed, over the size of the
    group. *)
Definition within_term (a : nat) (tri_idxs : list nat * list nat)
    (distances : list float64) (group_sizes : list Z) (grouping : list Z)
    (i : nat) : float64 :=
  (sum_sq (within_distances a grouping tri_idxs distances i)
   / of_int (default 0%Z (group_sizes !! i)))%float.

(** The within-group sum of squares as section 4.2 words it: the terms of
    the codes 0..a-1, added in turn. *)
Definition spec_s_W (a : nat) (tri_idxs : list nat * list nat)
    (distances : list float64) (group_sizes : list Z) (grouping : list Z)
  : float64 :=
  foldl (fun s_W i =>
           (s_W + within_term a tri_idxs distances group_sizes grouping i)%float)
        (of_int 0) (seq 0 a).

(** [(s_A / (a - 1)) / (s_W / (N - a))] with [s_A = s_T - s_W]. *)
Definition spec_pseudo_F (N a : nat) (s_T s_W : float64) : float64 :=
  let s_A := (s_T - s_W)%float in
  ((s_A / of_int (Z.of_nat a - 1))
   / (s_W / of_int (Z.of_nat N - Z.of_nat a)))%float.

(** The floats whose sign bit is clear, and nan: +0, the positive numbers
    and +inf. *)
Definition sign_clear (x : spec_float) : Prop :=
  match x with
  | S754_zero s | S754_infinity s | S754_finite s _ _ => s = false
  | S754_nan => True
  end.

(** The floats that are not below zero: the two zeros, the positive
    numbers, +inf, and nan. *)
Definition not_negative (x : spec_float) : Prop :=
  match x with
  | S754_zero _ | S754_nan => True
  | S754_infinity s | S754_finite s _ _ => s = false
  end.

(** The floats that are not above zero. *)
Definition not_positive (x : spec_float) : Prop :=
  match x with
  | S754_zero _ | S754_nan => True
  | S754_infinity s | S754_finite s _ _ => s = true
  end.

(** Renaming the group codes of a grouping by [pi]. *)
Definition relabel (pi : nat → nat) (grouping : list Z) : list Z :=
  map (fun g => Z.of_nat (pi (Z.to_nat g))) grouping.

(** The code among 0..a-1 that [pi] sends to [j]. *)
Definition preimage (pi : nat → nat) (a j : nat) : nat :=
  default 0%nat (snd <$> list_find (fun i => pi i = j) (seq 0 a)).

(** The pairs above the diagonal once more, listed column by column. *)
Definition colmajor_pairs (n : nat) : list (nat * nat) :=
  flat_map (fun j => map (fun i => (i, j)) (seq 0 j)) (seq 0 n).

(** How often [v] occurs in a vector. *)
Definition occurrences (v : Z) (xs : list Z) : nat :=
  length (filter (fun x => x = v) xs).

(** What section 4.2 step 1 asks of the grouping matrix: it is symmetric;
    a cell holds a group code exactly when both objects carry that code,
    the diagonal included; every other cell holds -1. *)
Definition marks_groups (N a : nat) (grouping : list Z) (M : matrix) : Prop :=
  dims M N N
  ∧ (∀ i j, (i < N)%nat → (j < N)%nat → cell M i j = cell M j i)
  ∧ (∀ i j g, (i < N)%nat → (j < N)%nat → 0 ≤ g < Z.of_nat a →
       cell M i j = Some g ↔ grouping !! i = Some g ∧ grouping !! j = Some g)
  ∧ (∀ i j, (i < N)%nat → (j < N)%nat →
       ¬ (∃ g, 0 ≤ g < Z.of_nat a
               ∧ grouping !! i = Some g ∧ grouping !! j = Some g) →
       cell M i j = Some (-1)).

(** What section 8 asks of the extracted triangle: entry [k] holds a group
    code exactly when both objects of the [k]-th pair carry it; a pair
    across groups holds -1; and a code occurs as often as its group has
    unordered pairs, m (m - 1) / 2 for a group of m objects. *)
Definition counts_within_pairs (a : nat) (grouping : list Z)
    (tri_idxs : list nat * list nat) (grouping_tri : list Z) : Prop :=
  length grouping_tri = length tri_idxs.1
  ∧ (∀ k r c g, tri_idxs.1 !! k = Some r → tri_idxs.2 !! k = Some c →
       0 ≤ g < Z.of_nat a →
       grouping_tri !! k = Some g
       ↔ grouping !! r = Some g ∧ grouping !! c = Some g)
  ∧ (∀ k r c, tri_idxs.1 !! k = Some r → tri_idxs.2 !! k = Some c →
       grouping !! r ≠ grouping !! c → grouping_tri !! k = Some (-1))
  ∧ (∀ g, 0 ≤ g < Z.of_nat a →
       (2 * occurrences g grouping_tri
        = occurrences g grouping * (occurrences g grouping - 1))%nat).

(** The inputs [permanova] is meant for: one label per object, at least
    two different labels, one condensed distance per unordered pair. *)
Definition valid_input {label : Type} (distance_matrix : DistanceMatrix)
    (labels : list label) : Prop :=
  length labels = (shape distance_matrix).1
  ∧ length (condensed_form distance_matrix)
    = length (triu_pairs (shape distance_matrix).1)
  ∧ ∃ x y, x ∈ labels ∧ y ∈ labels ∧ x ≠ y.

(** The scenario of section 8: four objects in two tight groups far from
    each other, and a source of shuffles whose [k]-th draw rotates the
    grouping by [k + 1] places. *)
Definition two_tight_groups : DistanceMatrix :=
  Build_DistanceMatrix (4, 4)%nat [1; 10; 10; 10; 10; 1]%float.

Definition two_tight_labels : list string := ["A"; "A"; "B"; "B"]%string.

Definition rotating : nat → list Z → list Z := fun k g => rotate (S k) g.

(** The canonical inputs of section 3: between 2 and N-1 groups; one code
    in 0..a-1 per object; index pairs with row < column that list every
    unordered pair once; one distance per pair; for every code the number
    of objects that carry it, which is at least 1. *)
Record canonical (N a : nat) (tri_idxs : list nat * list nat)
    (distances : list float64) (group_sizes : list Z) (grouping : list Z)
  : Prop :=
  Build_canonical {
    can_groups : (2 ≤ a < N)%nat;
    can_grouping : length grouping = N;
    can_codes : Forall (fun g => 0 ≤ g < Z.of_nat a) grouping;
    can_tri_len : length tri_idxs.1 = length tri_idxs.2;
    can_tri : zip tri_idxs.1 tri_idxs.2 ≡ₚ triu_pairs N;
    can_distances : length distances = length tri_idxs.1;
    can_sizes : group_sizes = map (group_count grouping) (seq 0 a);
    can_sizes_pos : Forall (fun n => 1 ≤ n) group_sizes
  }.

(** ** Notions for the further properties *)

Definition sum_Z (xs : list Z) : Z := foldr Z.add 0 xs.

(** ** The constructor of the deprecated class *)

Module CategoricalStats.

(** The attributes that the constructor of the base class leaves on the
    instance and that [PERMANOVA] reads: the distance matrix, the integer
    grouping, the group labels and the index pairs.  The base class is not
    part of the sources at hand; the attributes are given. *)
Record self_t (label : Type) : Type := Build_self {
  _dm : DistanceMatrix;
  _grouping : list Z;
  _groups : list label;
  _tri_idxs : list nat * list nat
}.
Arguments Build_self {label}.
Arguments _dm {label}.
Arguments _grouping {label}.
Arguments _groups {label}.
Arguments _tri_idxs {label}.

End CategoricalStats.

(** Lines 182-186 of [PERMANOVA.__init__], after the deprecation warning
    and the constructor of the base class: the attributes the subclass
    adds.  [np.bincount] may raise. *)
Definition PERMANOVA__init__ {label : Type}
    (base : CategoricalStats.self_t label) : result (PERMANOVA.self_t label) :=
  _group_sizes ← np_bincount (CategoricalStats._grouping base);
  let _num_groups := length (CategoricalStats._groups base) in
  let _distances := condensed_form (CategoricalStats._dm base) in
  let _s_T :=
    (sum_sq _distances
     / of_int (Z.of_nat (shape (CategoricalStats._dm base)).1))%float in
  Ok (PERMANOVA.Build_self
        (shape (CategoricalStats._dm base))
        (CategoricalStats._groups base)
        (CategoricalStats._tri_idxs base)
        _distances _group_sizes _num_groups _s_T).

(** * Properties *)

(** ** The result monad *)

Lemma for_each_app {A S : Type} (body : S → A → result S) (xs ys : list A) (s : S) :
  for_each body (xs ++ ys) s = (for_each body xs s ≫= for_each body ys).
Proof.
  revert s. induction xs as [|x xs IH]; intros s; simpl; [done|].
  destruct (body s x) as [s'|e]; simpl; [apply IH | done].
Qed.

Lemma traverse_total {A B : Type} (f : A → result B) (g : A → B) (xs : list A) :
  Forall (fun x => f x = Ok (g x)) xs → traverse f xs = Ok (map g xs).
Proof.
  induction 1 as [|x xs Hx _ IH]; simpl; [done|].
  rewrite Hx, IH. reflexivity.
Qed.

(** ** Index arrays *)

Lemma length_np_tile {A : Type} (l : list A) (n : nat) :
  length (np_tile l n) = (n * length l)%nat.
Proof.
  unfold np_tile. induction n as [|n IH]; simpl; [done|].
  rewrite length_app, IH. lia.
Qed.

Lemma length_np_repeat {A : Type} (l : list A) (n : nat) :
  length (np_repeat l n) = (length l * n)%nat.
Proof.
  unfold np_repeat. induction l as [|x l IH]; simpl; [done|].
  rewrite length_app, length_replicate, IH. lia.
Qed.

Lemma zip_replicate_r {A B : Type} (l : list A) (y : B) :
  zip l (replicate (length l) y) = map (fun x => (x, y)) l.
Proof. induction l as [|x l IH]; simpl; [done|]. by rewrite IH. Qed.

Lemma zip_tile_repeat {A B : Type} (l : list A) (l2 : list B) :
  zip (np_tile l (length l2)) (np_repeat l2 (length l))
  = flat_map (fun y => map (fun x => (x, y)) l) l2.
Proof.
  unfold np_tile, np_repeat. induction l2 as [|y l2 IH]; simpl; [done|].
  rewrite zip_with_app by (by rewrite length_replicate).
  rewrite IH. f_equal. apply zip_replicate_r.
Qed.

(** The two arrays of [_index_combinations] enumerate the square of the
    index set. *)
Lemma broadcast_index_combinations (indices : list nat) :
  broadcast2 (_index_combinations indices).1 (_index_combinations indices).2
  = Ok (flat_map (fun y => map (fun x => (x, y)) indices) indices).
Proof.
  unfold broadcast2, _index_combinations; simpl.
  rewrite decide_True by (rewrite length_np_tile, length_np_repeat; lia).
  by rewrite zip_tile_repeat.
Qed.

Lemma elem_of_square (indices : list nat) (r c : nat) :
  (r, c) ∈ flat_map (fun y => map (fun x => (x, y)) indices) indices
  ↔ r ∈ indices ∧ c ∈ indices.
Proof.
  rewrite !list_elem_of_In, in_flat_map. split.
  - intros (y & Hy & Hin). apply in_map_iff in Hin as (x & Heq & Hx).
    by inversion Heq; subst.
  - intros [Hr Hc]. exists c. split; [done|]. apply in_map_iff. eauto.
Qed.

Lemma elem_of_np_where_eq (grouping : list Z) (v : Z) (i : nat) :
  i ∈ np_where_eq grouping v ↔ grouping !! i = Some v.
Proof.
  unfold np_where_eq. rewrite list_elem_of_filter, list_elem_of_In, in_seq.
  split; [tauto|]. intros H. split; [done|].
  apply lookup_lt_Some in H. lia.
Qed.

(** ** Matrices *)

Lemma dims_minus_ones (nr nc : nat) : dims (minus_ones (nr, nc)) nr nc.
Proof.
  split; simpl.
  - apply length_replicate.
  - apply Forall_replicate, length_replicate.
Qed.

Lemma cell_minus_ones (nr nc r c : nat) :
  (r < nr)%nat → (c < nc)%nat → cell (minus_ones (nr, nc)) r c = Some (-1).
Proof.
  intros Hr Hc. unfold cell, minus_ones; simpl.
  rewrite lookup_replicate_2 by done.
  exact (lookup_replicate_2 _ _ _ Hc).
Qed.

Lemma dims_row (M : matrix) (nr nc r : nat) :
  dims M nr nc → (r < nr)%nat → ∃ row, M !! r = Some row ∧ length row = nc.
Proof.
  intros [Hlen Hrows] Hr.
  destruct (lookup_lt_is_Some_2 M r) as [row Hrow]; [lia|].
  exists row. split; [done|].
  by apply (proj1 (Forall_lookup _ _) Hrows r).
Qed.

Lemma get_cell_Some (M : matrix) (rc : nat * nat) (v : Z) :
  cell M rc.1 rc.2 = Some v → get_cell M rc = Ok v.
Proof.
  unfold cell, get_cell. destruct (M !! rc.1) as [row|]; simpl; [|done].
  by intros ->.
Qed.

Lemma set_cell_spec (M : matrix) (nr nc r c : nat) (v : Z) :
  dims M nr nc → (r < nr)%nat → (c < nc)%nat →
  ∃ M', set_cell v M (r, c) = Ok M' ∧ dims M' nr nc ∧
        ∀ r' c', cell M' r' c'
                 = if decide ((r', c') = (r, c)) then Some v else cell M r' c'.
Proof.
  intros HM Hr Hc.
  destruct (dims_row M nr nc r HM Hr) as (row & Hrow & Hlen).
  exists (<[r := <[c := v]> row]> M). unfold set_cell; simpl.
  rewrite Hrow, decide_True by lia. split; [done|]. split.
  - destruct HM as [HlenM Hrows]. split; [by rewrite length_insert|].
    apply Forall_insert; [done|]. by rewrite length_insert.
  - intros r' c'. unfold cell. destruct HM as [HlenM _].
    destruct (decide (r' = r)) as [->|Hne].
    + rewrite list_lookup_insert_eq by lia. simpl.
      destruct (decide (c' = c)) as [->|Hnc].
      * rewrite decide_True by done. apply list_lookup_insert_eq. lia.
      * rewrite decide_False by congruence.
        rewrite list_lookup_insert_ne by done. by rewrite Hrow.
    + rewrite decide_False by congruence.
      by rewrite list_lookup_insert_ne.
Qed.

(** Assigning one value at a list of positions, all of them inside the
    matrix, changes exactly those positions. *)
Lemma for_each_set_cell (ps : list (nat * nat)) (M : matrix) (nr nc : nat) (v : Z) :
  dims M nr nc →
  Forall (fun rc => (rc.1 < nr)%nat ∧ (rc.2 < nc)%nat) ps →
  ∃ M', for_each (set_cell v) ps M = Ok M' ∧ dims M' nr nc ∧
        ∀ r c, cell M' r c = if decide ((r, c) ∈ ps) then Some v else cell M r c.
Proof.
  intros HM Hps. revert M HM.
  induction Hps as [|[r c] ps [Hr Hc] _ IH]; intros M HM.
  - exists M. split; [done|]. split; [done|]. intros r c.
    rewrite decide_False; [done|]. apply not_elem_of_nil.
  - simpl in Hr, Hc.
    destruct (set_cell_spec M nr nc r c v HM Hr Hc) as (M1 & Hset & HM1 & Hcell1).
    destruct (IH M1 HM1) as (M2 & Hfor & HM2 & Hcell2).
    exists M2. simpl. rewrite Hset. simpl. split; [done|]. split; [done|].
    intros r' c'. rewrite Hcell2, Hcell1.
    destruct (decide ((r', c') ∈ ps)) as [Hin|Hnin].
    + rewrite decide_True; [done|]. by apply list_elem_of_further.
    + destruct (decide ((r', c') = (r, c))) as [->|Hne].
      * rewrite decide_True; [done|]. apply list_elem_of_here.
      * rewrite decide_False; [done|].
        intros Hin. apply elem_of_cons in Hin as [?|?]; contradiction.
Qed.

(** ** The grouping matrix *)

Lemma pair_code_step (a : nat) (grouping : list Z) (r c : nat) :
  pair_code (S a) grouping (r, c)
  = if decide (grouping !! r = Some (Z.of_nat a) ∧ grouping !! c = Some (Z.of_nat a))
    then Z.of_nat a
    else pair_code a grouping (r, c).
Proof.
  unfold pair_code; simpl.
  destruct (grouping !! r) as [g|], (grouping !! c) as [h|];
    repeat case_decide; try done; destruct_and?; simplify_eq; try lia.
  assert (h ≠ Z.of_nat a) by (intros ->; tauto). lia.
Qed.

(** The loop of lines 117-120 succeeds on a grouping that fits in the
    matrix, and leaves at every position the common code of the two
    objects, or -1. *)
Lemma grouping_matrix_spec (N a : nat) (grouping : list Z) :
  (length grouping ≤ N)%nat →
  ∃ M, grouping_matrix_of (N, N) a grouping = Ok M ∧ dims M N N ∧
       ∀ r c, (r < N)%nat → (c < N)%nat →
              cell M r c = Some (pair_code a grouping (r, c)).
Proof.
  intros Hlen. unfold grouping_matrix_of. induction a as [|a IH].
  - exists (minus_ones (N, N)). split; [done|].
    split; [apply dims_minus_ones|]. intros r c Hr Hc.
    rewrite cell_minus_ones by done. unfold pair_code; simpl.
    destruct (grouping !! r), (grouping !! c); try done.
    by rewrite decide_False by lia.
  - destruct IH as (M & Hfor & HM & Hcell).
    rewrite seq_S, for_each_app, Hfor. simpl.
    unfold setitem. rewrite broadcast_index_combinations. simpl.
    set (idx := np_where_eq grouping (Z.of_nat a)).
    destruct (for_each_set_cell
                (flat_map (fun y => map (fun x => (x, y)) idx) idx)
                M N N (Z.of_nat a) HM) as (M' & Hfor' & HM' & Hcell').
    { apply Forall_forall. intros [r c] Hin.
      apply elem_of_square in Hin as [Hr Hc].
      apply elem_of_np_where_eq, lookup_lt_Some in Hr, Hc. simpl. lia. }
    exists M'. rewrite Hfor'. split; [done|]. split; [done|].
    intros r c Hr Hc. rewrite Hcell', pair_code_step, Hcell by done.
    destruct (decide ((r, c) ∈ flat_map (fun y => map (fun x => (x, y)) idx) idx))
      as [Hin|Hnin].
    + apply elem_of_square in Hin as [Hr' Hc'].
      apply elem_of_np_where_eq in Hr', Hc'. by rewrite decide_True.
    + rewrite decide_False; [done|]. intros [Hr' Hc']. apply Hnin.
      apply elem_of_square. by split; apply elem_of_np_where_eq.
Qed.

Lemma getitem_spec (M : matrix) (N a : nat) (grouping : list Z)
    (tri_idxs : list nat * list nat) :
  (∀ r c, (r < N)%nat → (c < N)%nat →
          cell M r c = Some (pair_code a grouping (r, c))) →
  length tri_idxs.1 = length tri_idxs.2 →
  Forall (fun rc => (rc.1 < N)%nat ∧ (rc.2 < N)%nat) (zip tri_idxs.1 tri_idxs.2) →
  getitem M tri_idxs
  = Ok (map (pair_code a grouping) (zip tri_idxs.1 tri_idxs.2)).
Proof.
  intros Hcell Hlen Hbound. unfold getitem, broadcast2.
  rewrite decide_True by done. simpl.
  apply traverse_total. eapply Forall_impl; [exact Hbound|].
  intros [r c] [Hr Hc]. apply get_cell_Some. simpl in *. by apply Hcell.
Qed.

(** ** The within-group sum of squares *)

Lemma for_each_total {A S : Type} (body : S → A → result S) (f : S → A → S)
    (xs : list A) (s : S) :
  Forall (fun x => ∀ s, body s x = Ok (f s x)) xs →
  for_each body xs s = Ok (foldl f s xs).
Proof.
  intros H. revert s. induction H as [|x xs Hx _ IH]; intros s; simpl; [done|].
  rewrite Hx. simpl. apply IH.
Qed.

(** Selecting with the boolean mask of a test is filtering by the test. *)
Lemma mask_filter {A B : Type} (P : B → Prop) `{∀ p, Decision (P p)}
    (xs : list A) (ps : list B) :
  map fst (filter (fun xb => xb.2 = true)
                  (zip xs (map (fun p => bool_decide (P p)) ps)))
  = map fst (filter (fun xp => P xp.2) (zip xs ps)).
Proof.
  revert ps. induction xs as [|x xs IH]; intros [|p ps]; simpl; try done.
  rewrite !filter_cons. simpl. destruct (decide (P p)) as [Hp|Hp].
  - rewrite bool_decide_eq_true_2 by done. rewrite decide_True by done.
    simpl. by rewrite IH.
  - rewrite bool_decide_eq_false_2 by done. rewrite decide_False by done.
    apply IH.
Qed.

(** Selecting on the extracted triangle is selecting the pairs by their
    common code. *)
Lemma selected_within (a : nat) (grouping : list Z)
    (tri_idxs : list nat * list nat) (distances : list float64) (i : nat) :
  selected_distances distances
    (map (pair_code a grouping) (zip tri_idxs.1 tri_idxs.2)) i
  = within_distances a grouping tri_idxs distances i.
Proof.
  unfold selected_distances, within_distances.
  generalize (zip tri_idxs.1 tri_idxs.2). intros ps. revert ps.
  induction distances as [|d ds IH]; intros [|p ps]; simpl; try done.
  rewrite !filter_cons. simpl.
  destruct (decide (pair_code a grouping p = Z.of_nat i)); simpl;
    by rewrite IH.
Qed.

Lemma within_group_ss_spec (a : nat) (grouping : list Z)
    (tri_idxs : list nat * list nat) (distances : list float64) (group_sizes : list Z) :
  length tri_idxs.1 = length tri_idxs.2 →
  length distances = length tri_idxs.1 →
  (a ≤ length group_sizes)%nat →
  within_group_ss a distances group_sizes
    (map (pair_code a grouping) (zip tri_idxs.1 tri_idxs.2))
  = Ok (spec_s_W a tri_idxs distances group_sizes grouping).
Proof.
  intros Hlen Hd Hsz. unfold within_group_ss, spec_s_W.
  apply for_each_total, Forall_forall. intros i Hi s_W.
  apply list_elem_of_In, in_seq in Hi.
  unfold mask_select. rewrite decide_True; last first.
  { rewrite !length_map, length_zip_with. lia. }
  simpl. unfold index_at.
  destruct (lookup_lt_is_Some_2 group_sizes i) as [n Hn]; [lia|].
  rewrite Hn. simpl. unfold within_term, within_distances. rewrite map_map.
  rewrite (mask_filter (fun p => pair_code a grouping p = Z.of_nat i)).
  by rewrite Hn.
Qed.

(** ** The statistic *)

(** On inputs that fit together the procedure returns, and what it returns
    is the pseudo-F of section 4.2. *)
Lemma compute_f_stat_spec (N a : nat) (tri_idxs : list nat * list nat)
    (distances : list float64) (group_sizes : list Z) (s_T : float64)
    (grouping : list Z) :
  (length grouping ≤ N)%nat →
  length tri_idxs.1 = length tri_idxs.2 →
  Forall (fun rc => (rc.1 < N)%nat ∧ (rc.2 < N)%nat) (zip tri_idxs.1 tri_idxs.2) →
  length distances = length tri_idxs.1 →
  (a ≤ length group_sizes)%nat →
  ¬ (a = 0%nat ∧ N = 0%nat) →
  _compute_f_stat N a tri_idxs distances group_sizes s_T grouping
  = Ok (spec_pseudo_F N a s_T
          (spec_s_W a tri_idxs distances group_sizes grouping)).
Proof.
  intros Hg Hlen Hbound Hd Hsz Hne. unfold _compute_f_stat.
  destruct (grouping_matrix_spec N a grouping Hg) as (M & -> & _ & Hcell).
  simpl. rewrite (getitem_spec M N a grouping) by done. simpl.
  rewrite within_group_ss_spec by done. simpl.
  unfold f_ratio. by rewrite decide_False.
Qed.

Lemma elem_of_triu_pairs (N i j : nat) :
  (i, j) ∈ triu_pairs N ↔ (i < j < N)%nat.
Proof.
  unfold triu_pairs. rewrite list_elem_of_In, in_flat_map. split.
  - intros (x & Hx & Hin). apply in_seq in Hx.
    apply in_map_iff in Hin as (y & [= -> ->] & Hy). apply in_seq in Hy. lia.
  - intros Hij. exists i. split; [apply in_seq; lia|].
    apply in_map_iff. exists j. split; [done|]. apply in_seq. lia.
Qed.

Lemma canonical_bounds (N a : nat) tri_idxs distances group_sizes grouping :
  canonical N a tri_idxs distances group_sizes grouping →
  Forall (fun rc => (rc.1 < rc.2 < N)%nat) (zip tri_idxs.1 tri_idxs.2).
Proof.
  intros Hc. rewrite (can_tri _ _ _ _ _ _ Hc). apply Forall_forall.
  intros [i j] Hin. by apply elem_of_triu_pairs in Hin.
Qed.

Lemma canonical_sizes_length (N a : nat) tri_idxs distances group_sizes grouping :
  canonical N a tri_idxs distances group_sizes grouping →
  length group_sizes = a.
Proof.
  intros Hc. rewrite (can_sizes _ _ _ _ _ _ Hc).
  by rewrite length_map, length_seq.
Qed.

Lemma canonical_returns (N a : nat) tri_idxs distances group_sizes s_T grouping :
  canonical N a tri_idxs distances group_sizes grouping →
  _compute_f_stat N a tri_idxs distances group_sizes s_T grouping
  = Ok (spec_pseudo_F N a s_T
          (spec_s_W a tri_idxs distances group_sizes grouping)).
Proof.
  intros Hc. pose proof (canonical_bounds _ _ _ _ _ _ Hc) as Hb.
  pose proof (canonical_sizes_length _ _ _ _ _ _ Hc) as Hs.
  destruct Hc. apply compute_f_stat_spec; try done; try lia.
  eapply Forall_impl; [exact Hb|]. simpl. lia.
Qed.

(** ** Arithmetic of binary64 *)

(** Rounding keeps the sign it is given. *)
Lemma binary_round_aux_sign (s : bool) (m e : Z) (l : location) :
  match binary_round_aux prec emax s m e l with
  | S754_zero s' | S754_infinity s' | S754_finite s' _ _ => s' = s
  | S754_nan => True
  end.
Proof.
  unfold binary_round_aux.
  destruct (shr_fexp prec emax m e l) as [mrs' e'].
  destruct (shr_fexp prec emax _ e' loc_Exact) as [mrs'' e''].
  destruct (shr_m mrs''); [done| |done]. by destruct (Z.leb _ _).
Qed.

Lemma binary_round_sign (s : bool) (m : positive) (e : Z) :
  match binary_round prec emax s m e with
  | S754_zero s' | S754_infinity s' | S754_finite s' _ _ => s' = s
  | S754_nan => True
  end.
Proof.
  unfold binary_round. destruct (shl_align _ _ _) as [mz ez].
  apply binary_round_aux_sign.
Qed.

Lemma binary_round_clear (m : positive) (e : Z) :
  sign_clear (binary_round prec emax false m e).
Proof.
  pose proof (binary_round_sign false m e) as H.
  unfold sign_clear. by destruct (binary_round prec emax false m e).
Qed.

Lemma binary_normalize_clear (m e : Z) :
  0 ≤ m → sign_clear (binary_normalize prec emax m e false).
Proof.
  intros Hm. destruct m as [|p|p]; [done| |lia]. apply binary_round_clear.
Qed.

Lemma SFmul_self_clear (x : spec_float) : sign_clear (SFmul prec emax x x).
Proof.
  destruct x as [s|s| |s m e]; simpl; try done.
  - by destruct s.
  - by destruct s.
  - pose proof (binary_round_aux_sign (xorb s s) (Z.pos (m * m)) (e + e)
                  loc_Exact) as H.
    destruct (binary_round_aux _ _ _ _ _ _); simpl; try done; by destruct s.
Qed.

Lemma SFadd_clear (x y : spec_float) :
  sign_clear x → sign_clear y → sign_clear (SFadd prec emax x y).
Proof.
  destruct x as [sx|sx| |sx mx ex], y as [sy|sy| |sy my ey]; simpl;
    intros Hx Hy; subst; simpl; try done.
  apply binary_round_clear.
Qed.

Lemma SFdiv_clear (x y : spec_float) :
  sign_clear x → sign_clear y → sign_clear (SFdiv prec emax x y).
Proof.
  destruct x as [sx|sx| |sx mx ex], y as [sy|sy| |sy my ey]; simpl;
    intros Hx Hy; subst; simpl; try done.
  destruct (SFdiv_core_binary _ _ _ _ _ _) as [[mz ez] lz].
  pose proof (binary_round_aux_sign false mz ez lz) as H.
  by destruct (binary_round_aux _ _ _ _ _ _).
Qed.

(** Dividing by a float of clear sign keeps a quotient on the side of zero
    the dividend is on. *)
Lemma SFdiv_not_negative (x y : spec_float) :
  not_negative x → sign_clear y → not_negative (SFdiv prec emax x y).
Proof.
  destruct x as [sx|sx| |sx mx ex], y as [sy|sy| |sy my ey]; simpl;
    intros Hx Hy; subst; simpl; try done.
  destruct (SFdiv_core_binary _ _ _ _ _ _) as [[mz ez] lz].
  pose proof (binary_round_aux_sign false mz ez lz) as H.
  by destruct (binary_round_aux _ _ _ _ _ _).
Qed.

Lemma SFdiv_not_positive (x y : spec_float) :
  not_positive x → sign_clear y → not_positive (SFdiv prec emax x y).
Proof.
  destruct x as [sx|sx| |sx mx ex], y as [sy|sy| |sy my ey]; simpl;
    intros Hx Hy; subst; simpl; try done.
  destruct (SFdiv_core_binary _ _ _ _ _ _) as [[mz ez] lz].
  pose proof (binary_round_aux_sign true mz ez lz) as H.
  by destruct (binary_round_aux _ _ _ _ _ _).
Qed.

Lemma SFadd_comm (x y : spec_float) : SFadd prec emax x y = SFadd prec emax y x.
Proof.
  destruct x as [sx|sx| |sx mx ex], y as [sy|sy| |sy my ey]; simpl; try done.
  - by destruct sx, sy.
  - by destruct sx, sy.
  - by rewrite Z.min_comm, Z.add_comm.
Qed.

Lemma add_comm (x y : float64) : (x + y = y + x)%float.
Proof. apply Prim2SF_inj. rewrite !FloatAxioms.add_spec. apply SFadd_comm. Qed.

Lemma zero_clear : sign_clear (Prim2SF 0).
Proof. reflexivity. Qed.

Lemma mul_self_clear (x : float64) : sign_clear (Prim2SF (x * x)).
Proof. rewrite FloatAxioms.mul_spec. apply SFmul_self_clear. Qed.

Lemma add_clear (x y : float64) :
  sign_clear (Prim2SF x) → sign_clear (Prim2SF y) → sign_clear (Prim2SF (x + y)).
Proof. rewrite FloatAxioms.add_spec. apply SFadd_clear. Qed.

Lemma div_clear (x y : float64) :
  sign_clear (Prim2SF x) → sign_clear (Prim2SF y) → sign_clear (Prim2SF (x / y)).
Proof. rewrite FloatAxioms.div_spec. apply SFdiv_clear. Qed.

Lemma div_not_negative (x y : float64) :
  not_negative (Prim2SF x) → sign_clear (Prim2SF y) →
  not_negative (Prim2SF (x / y)).
Proof. rewrite FloatAxioms.div_spec. apply SFdiv_not_negative. Qed.

Lemma div_not_positive (x y : float64) :
  not_positive (Prim2SF x) → sign_clear (Prim2SF y) →
  not_positive (Prim2SF (x / y)).
Proof. rewrite FloatAxioms.div_spec. apply SFdiv_not_positive. Qed.

(** Adding to the zero the sum starts from changes nothing. *)
Lemma zero_add (x : float64) : sign_clear (Prim2SF x) → (0 + x = x)%float.
Proof.
  intros Hx. apply Prim2SF_inj. rewrite FloatAxioms.add_spec.
  change (Prim2SF 0) with (S754_zero false).
  destruct (Prim2SF x) as [s|s| |s m e]; simpl in *; by subst.
Qed.

Lemma of_uint63_clear (n : Uint63.int) :
  sign_clear (Prim2SF (PrimFloat.of_uint63 n)).
Proof.
  rewrite of_uint63_spec. apply binary_normalize_clear, Uint63.to_Z_bounded.
Qed.

Lemma of_int_nonneg (z : Z) :
  0 ≤ z → of_int z = PrimFloat.of_uint63 (Uint63.of_Z z).
Proof. intros Hz. unfold of_int. by rewrite (proj2 (Z.leb_le 0 z)). Qed.

Lemma of_int_clear (z : Z) : 0 ≤ z → sign_clear (Prim2SF (of_int z)).
Proof. intros Hz. rewrite of_int_nonneg by done. apply of_uint63_clear. Qed.

Lemma sign_clear_not_negative (x : spec_float) : sign_clear x → not_negative x.
Proof. by destruct x. Qed.

(** What [0 <= x] and [x <= 0] say of the float. *)
Lemma leb_zero_not_negative (x : float64) :
  (0 <=? x)%float = true → not_negative (Prim2SF x).
Proof.
  rewrite FloatAxioms.leb_spec. change (Prim2SF 0) with (S754_zero false).
  unfold SFleb. by destruct (Prim2SF x) as [s|[]| |[] m e].
Qed.

Lemma not_negative_leb (x : float64) :
  not_negative (Prim2SF x) → (0 <=? x)%float = true ∨ x = nan.
Proof.
  intros Hx. destruct (Prim2SF x) as [s|s| |s m e] eqn:Heq.
  - left. rewrite FloatAxioms.leb_spec, Heq. reflexivity.
  - left. rewrite FloatAxioms.leb_spec, Heq. simpl in Hx. by subst.
  - right. by apply Prim2SF_inj.
  - left. rewrite FloatAxioms.leb_spec, Heq. simpl in Hx. by subst.
Qed.

Lemma leb_zero_not_positive (x : float64) :
  (x <=? 0)%float = true → not_positive (Prim2SF x).
Proof.
  rewrite FloatAxioms.leb_spec. change (Prim2SF 0) with (S754_zero false).
  unfold SFleb. by destruct (Prim2SF x) as [s|[]| |[] m e].
Qed.

Lemma not_positive_leb (x : float64) :
  not_positive (Prim2SF x) → (x <=? 0)%float = true ∨ x = nan.
Proof.
  intros Hx. destruct (Prim2SF x) as [s|s| |s m e] eqn:Heq.
  - left. rewrite FloatAxioms.leb_spec, Heq. reflexivity.
  - left. rewrite FloatAxioms.leb_spec, Heq. simpl in Hx. by subst.
  - right. by apply Prim2SF_inj.
  - left. rewrite FloatAxioms.leb_spec, Heq. simpl in Hx. by subst.
Qed.

(** The mantissa of a float has as many binary digits as [digits2_pos]
    counts. *)
Lemma digits2_pos_bounds (m : positive) :
  2 ^ (Z.pos (digits2_pos m) - 1) ≤ Z.pos m < 2 ^ Z.pos (digits2_pos m).
Proof.
  induction m as [m IH|m IH|]; simpl digits2_pos.
  - rewrite Pos2Z.inj_succ.
    replace (Z.succ (Z.pos (digits2_pos m)) - 1)
      with (Z.succ (Z.pos (digits2_pos m) - 1)) by lia.
    rewrite !Z.pow_succ_r by lia. lia.
  - rewrite Pos2Z.inj_succ.
    replace (Z.succ (Z.pos (digits2_pos m)) - 1)
      with (Z.succ (Z.pos (digits2_pos m) - 1)) by lia.
    rewrite !Z.pow_succ_r by lia. lia.
  - simpl. lia.
Qed.

Lemma shl_align_value (m : positive) (e e' : Z) :
  e' ≤ e → Z.pos (shl_align m e e').1 = Z.pos m * 2 ^ (e - e').
Proof.
  intros He. unfold shl_align. destruct (e' - e) as [|d|d] eqn:Hd; simpl.
  - replace (e - e') with 0 by lia. lia.
  - lia.
  - replace (e - e') with (Z.pos d) by lia.
    change (Pos.iter xO m d) with (shift_pos d m).
    rewrite shift_pos_correct, Z.pow_pos_fold. lia.
Qed.

(** A float as the machine holds it has at most 53 digits, and exactly 53
    above the smallest exponent. *)
Lemma bounded_digits (m : positive) (e : Z) :
  bounded prec emax m e = true →
  emin ≤ e ∧ Z.pos (digits2_pos m) ≤ 53
  ∧ (emin < e → Z.pos (digits2_pos m) = 53).
Proof.
  unfold bounded, canonical_mantissa, fexp, SpecFloat.emin, prec, emax.
  intros H. apply andb_prop in H as [H _]. apply Z.eqb_eq in H. lia.
Qed.

(** Of two floats of the same sign, the one with the smaller exponent has
    the smaller mantissa once both are brought to that exponent. *)
Lemma aligned_order (m1 m2 : positive) (e1 e2 : Z) :
  bounded prec emax m1 e1 = true → bounded prec emax m2 e2 = true →
  e1 < e2 →
  Z.pos (shl_align m1 e1 (e1 `min` e2)).1
  < Z.pos (shl_align m2 e2 (e1 `min` e2)).1.
Proof.
  intros H1 H2 He.
  destruct (bounded_digits _ _ H1) as (Hmin1 & Hd1 & _).
  destruct (bounded_digits _ _ H2) as (_ & _ & Hd2).
  rewrite !shl_align_value by lia. rewrite Z.min_l by lia.
  rewrite Z.sub_diag, Z.mul_1_r.
  pose proof (digits2_pos_bounds m1) as [_ Hb1].
  pose proof (digits2_pos_bounds m2) as [Hb2 _].
  rewrite Hd2 in Hb2 by lia.
  assert (2 ^ Z.pos (digits2_pos m1) ≤ 2 ^ 53) by (apply Z.pow_le_mono_r; lia).
  assert (2 ^ 1 ≤ 2 ^ (e2 - e1)) by (apply Z.pow_le_mono_r; lia).
  change (2 ^ (53 - 1)) with 4503599627370496 in Hb2.
  change (2 ^ 53) with 9007199254740992 in *. change (2 ^ 1) with 2 in *.
  nia.
Qed.

Lemma aligned_same (m : positive) (e : Z) :
  Z.pos (shl_align m e (e `min` e)).1 = Z.pos m.
Proof. rewrite shl_align_value by lia. rewrite Z.min_id, Z.sub_diag. lia. Qed.

Lemma binary_normalize_not_positive (m e : Z) :
  m ≤ 0 → not_positive (binary_normalize prec emax m e false).
Proof.
  intros Hm. destruct m as [|p|p]; [done|lia|]. simpl.
  pose proof (binary_round_sign true p e) as H.
  by destruct (binary_round prec emax true p e).
Qed.

(** Subtracting a float from one that is not smaller gives a float that is
    not below zero, or nan (inf - inf). *)
Lemma SFsub_not_negative (x y : spec_float) :
  valid_binary x = true → valid_binary y = true →
  SFleb y x = true → not_negative (SFsub prec emax x y).
Proof.
  intros Hvx Hvy. unfold SFleb.
  destruct x as [sx|sx| |sx mx ex], y as [sy|sy| |sy my ey]; simpl;
    try done; try (by destruct sx, sy); try (by destruct sx);
    try (by destruct sy).
  simpl in Hvx, Hvy. intros Hle.
  apply sign_clear_not_negative, binary_normalize_clear.
  destruct sy, sx; simpl in *; try done.
  - destruct (Z.compare_spec ey ex) as [->|Hlt|Hgt]; try done.
    + rewrite !aligned_same.
      change (PosDef.Pos.compare_cont Eq my mx) with (Pos.compare my mx) in Hle.
      destruct (Pos.compare_spec my mx); simpl in Hle; try done; lia.
    + pose proof (aligned_order mx my ex ey Hvx Hvy ltac:(lia)). lia.
  - destruct (Z.compare_spec ey ex) as [->|Hlt|Hgt]; try done.
    + rewrite !aligned_same.
      change (PosDef.Pos.compare_cont Eq my mx) with (Pos.compare my mx) in Hle.
      destruct (Pos.compare_spec my mx); simpl in Hle; try done; lia.
    + pose proof (aligned_order my mx ey ex Hvy Hvx ltac:(lia)) as H.
      rewrite (Z.min_comm ey ex) in H. lia.
Qed.

Lemma SFsub_not_positive (x y : spec_float) :
  valid_binary x = true → valid_binary y = true →
  SFleb x y = true → not_positive (SFsub prec emax x y).
Proof.
  intros Hvx Hvy. unfold SFleb.
  destruct x as [sx|sx| |sx mx ex], y as [sy|sy| |sy my ey]; simpl;
    try done; try (by destruct sx, sy); try (by destruct sx);
    try (by destruct sy).
  simpl in Hvx, Hvy. intros Hle.
  apply binary_normalize_not_positive.
  destruct sx, sy; simpl in *; try done.
  - destruct (Z.compare_spec ex ey) as [->|Hlt|Hgt]; try done.
    + rewrite !aligned_same.
      change (PosDef.Pos.compare_cont Eq mx my) with (Pos.compare mx my) in Hle.
      destruct (Pos.compare_spec mx my); simpl in Hle; try done; lia.
    + pose proof (aligned_order my mx ey ex Hvy Hvx ltac:(lia)) as H.
      rewrite (Z.min_comm ey ex) in H. lia.
  - destruct (Z.compare_spec ex ey) as [->|Hlt|Hgt]; try done.
    + rewrite !aligned_same.
      change (PosDef.Pos.compare_cont Eq mx my) with (Pos.compare mx my) in Hle.
      destruct (Pos.compare_spec mx my); simpl in Hle; try done; lia.
    + pose proof (aligned_order mx my ex ey Hvx Hvy ltac:(lia)) as H. lia.
Qed.

Lemma leb_sub_not_negative (x y : float64) :
  (y <=? x)%float = true → not_negative (Prim2SF (x - y)).
Proof.
  rewrite FloatAxioms.leb_spec, FloatAxioms.sub_spec.
  apply SFsub_not_negative; apply Prim2SF_valid.
Qed.

Lemma leb_sub_not_positive (x y : float64) :
  (x <=? y)%float = true → not_positive (Prim2SF (x - y)).
Proof.
  rewrite FloatAxioms.leb_spec, FloatAxioms.sub_spec.
  apply SFsub_not_positive; apply Prim2SF_valid.
Qed.

(** ** np.sum *)

Lemma pairwise_sum_short (depth : nat) (xs : list float64) :
  (length xs < 8)%nat → pairwise_sum depth xs = foldl PrimFloat.add 0%float xs.
Proof. intros H. destruct depth; simpl; by rewrite decide_True. Qed.

(** The length of the array bounds the halvings: a larger [depth] changes
    nothing. *)
Lemma pairwise_sum_depth (d1 d2 : nat) (xs : list float64) :
  (length xs ≤ d1)%nat → (length xs ≤ d2)%nat →
  pairwise_sum d1 xs = pairwise_sum d2 xs.
Proof.
  revert d2 xs.
  induction d1 as [|d1 IH]; intros [|d2] xs H1 H2; cbn [pairwise_sum];
    repeat case_decide; try done; unfold PW_BLOCKSIZE in *; try lia.
  assert (57 ≤ length xs / 2 - (length xs / 2) mod 8 ≤ length xs / 2)%nat
    as Hn2.
  { pose proof (Nat.mod_upper_bound (length xs / 2) 8).
    pose proof (Nat.div_le_lower_bound (length xs) 2 64).
    lia. }
  pose proof (Nat.div_lt (length xs) 2).
  f_equal; apply IH; rewrite ?length_take, ?length_drop; lia.
Qed.

(** Fewer than eight entries are added from left to right. *)
Lemma np_sum_short (xs : list float64) :
  (length xs < 8)%nat → np_sum xs = (0 + foldl PrimFloat.add 0 xs)%float.
Proof. intros H. unfold np_sum. by rewrite pairwise_sum_short. Qed.

Section SumClosure.
Variable P : float64 → Prop.
Hypothesis P_zero : P 0%float.
Hypothesis P_add : ∀ x y, P x → P y → P (x + y)%float.

Lemma foldl_add_closed (acc : float64) (xs : list float64) :
  P acc → Forall P xs → P (foldl PrimFloat.add acc xs).
Proof.
  intros Hacc Hxs. revert acc Hacc.
  induction Hxs as [|x xs Hx _ IH]; intros acc Hacc; simpl; [done|].
  apply IH. by apply P_add.
Qed.

Lemma unrolled_rows_closed (rows : nat) (r xs : list float64) :
  Forall P r → Forall P xs →
  Forall P (unrolled_rows rows r xs).1 ∧ Forall P (unrolled_rows rows r xs).2.
Proof.
  revert r xs. induction rows as [|rows IH]; intros r xs Hr Hxs; simpl; [done|].
  case_decide; [|done]. apply IH.
  - apply Forall_lookup. intros i z Hz.
    apply lookup_zip_with_Some in Hz as (x & y & -> & Hx & Hy).
    apply P_add.
    + exact (Forall_lookup_1 _ _ _ _ Hr Hx).
    + apply lookup_take_Some in Hy as [Hy _].
      exact (Forall_lookup_1 _ _ _ _ Hxs Hy).
  - by apply Forall_drop.
Qed.

Lemma sum_accumulators_closed (r : list float64) :
  Forall P r → P (sum_accumulators r).
Proof.
  intros Hr.
  destruct r as [|r0 [|r1 [|r2 [|r3 [|r4 [|r5 [|r6 [|r7 [|r8 r]]]]]]]]];
    unfold sum_accumulators; try (by apply foldl_add_closed).
  rewrite !Forall_cons in Hr. destruct_and!. by repeat apply P_add.
Qed.

Lemma sum_block_closed (xs : list float64) : Forall P xs → P (sum_block xs).
Proof.
  intros Hxs. unfold sum_block.
  destruct (unrolled_rows_closed (length xs / 8) (take 8 xs) (drop 8 xs))
    as [Hr Hrest]; [by apply Forall_take | by apply Forall_drop |].
  destruct (unrolled_rows _ _ _) as [r rest]. simpl in *.
  apply foldl_add_closed; [|done]. by apply sum_accumulators_closed.
Qed.

Lemma pairwise_sum_closed (depth : nat) (xs : list float64) :
  Forall P xs → P (pairwise_sum depth xs).
Proof.
  revert xs. induction depth as [|depth IH]; intros xs Hxs; simpl.
  - repeat case_decide;
      [by apply foldl_add_closed | by apply sum_block_closed..].
  - repeat case_decide;
      [by apply foldl_add_closed | by apply sum_block_closed |].
    apply P_add; apply IH; [by apply Forall_take | by apply Forall_drop].
Qed.

Lemma np_sum_closed (xs : list float64) : Forall P xs → P (np_sum xs).
Proof.
  intros Hxs. unfold np_sum. apply P_add; [done|]. by apply pairwise_sum_closed.
Qed.
End SumClosure.

(** A sum of squares has a clear sign bit, or is nan. *)
Lemma sum_sq_clear (xs : list float64) : sign_clear (Prim2SF (sum_sq xs)).
Proof.
  unfold sum_sq.
  apply (np_sum_closed (fun x => sign_clear (Prim2SF x)) zero_clear add_clear).
  apply Forall_forall. intros y Hy.
  apply list_elem_of_In, in_map_iff in Hy as (x & <- & _). apply mul_self_clear.
Qed.

Lemma foldl_ext_in {A B : Type} (f h : A → B → A) (l : list B) (s : A) :
  (∀ s x, x ∈ l → f s x = h s x) → foldl f s l = foldl h s l.
Proof.
  revert s. induction l as [|x l IH]; intros s H; simpl; [done|].
  rewrite H by apply list_elem_of_here. apply IH.
  intros s' y Hy. apply H. by apply list_elem_of_further.
Qed.

Lemma foldl_map {A B C : Type} (f : A → C → A) (h : B → C) (l : list B) (s : A) :
  foldl f s (map h l) = foldl (fun s x => f s (h x)) s l.
Proof. revert s. induction l as [|x l IH]; intros s; simpl; [done|]. apply IH. Qed.

Lemma foldl_terms_clear {A : Type} (t : A → float64) (l : list A) (s : float64) :
  sign_clear (Prim2SF s) →
  (∀ x, x ∈ l → sign_clear (Prim2SF (t x))) →
  sign_clear (Prim2SF (foldl (fun s x => s + t x)%float s l)).
Proof.
  revert s. induction l as [|x l IH]; intros s Hs Ht; simpl; [done|].
  apply IH.
  - apply add_clear; [done|]. apply Ht, list_elem_of_here.
  - intros y Hy. apply Ht. by apply list_elem_of_further.
Qed.

(** ** The canonical inputs in binary64 *)

Lemma canonical_sizes_lookup (N a : nat) tri_idxs distances group_sizes grouping
    (i : nat) :
  canonical N a tri_idxs distances group_sizes grouping → (i < a)%nat →
  group_sizes !! i = Some (group_count grouping i).
Proof.
  intros Hc Hi. rewrite (can_sizes _ _ _ _ _ _ Hc).
  by rewrite list_lookup_fmap, lookup_seq_lt.
Qed.

Lemma group_count_nonneg (grouping : list Z) (i : nat) :
  0 ≤ group_count grouping i.
Proof. unfold group_count. lia. Qed.

Lemma within_term_clear (a : nat) tri_idxs distances group_sizes grouping (i : nat) :
  0 ≤ default 0 (group_sizes !! i) →
  sign_clear
    (Prim2SF (within_term a tri_idxs distances group_sizes grouping i)).
Proof.
  intros Hn. unfold within_term. apply div_clear; [apply sum_sq_clear|].
  by apply of_int_clear.
Qed.

Lemma canonical_term_clear (N a : nat) tri_idxs distances group_sizes grouping
    (i : nat) :
  canonical N a tri_idxs distances group_sizes grouping → (i < a)%nat →
  sign_clear
    (Prim2SF (within_term a tri_idxs distances group_sizes grouping i)).
Proof.
  intros Hc Hi. apply within_term_clear.
  rewrite (canonical_sizes_lookup _ _ _ _ _ _ _ Hc Hi). simpl.
  apply group_count_nonneg.
Qed.

(** The within-group sum of squares has a clear sign bit, or is nan. *)
Lemma canonical_s_W_clear (N a : nat) tri_idxs distances group_sizes grouping :
  canonical N a tri_idxs distances group_sizes grouping →
  sign_clear (Prim2SF (spec_s_W a tri_idxs distances group_sizes grouping)).
Proof.
  intros Hc. unfold spec_s_W. apply foldl_terms_clear; [apply zero_clear|].
  intros i Hi. apply list_elem_of_In, in_seq in Hi.
  apply (canonical_term_clear N); [done|lia].
Qed.

(** What the code makes of a canonical input, with the machine's
    operations spelt out. *)
Lemma spec_pseudo_F_primitive (N a : nat) (s_T s_W : float64) :
  (1 ≤ a ≤ N)%nat →
  spec_pseudo_F N a s_T s_W
  = (((s_T - s_W) / PrimFloat.of_uint63 (Uint63.of_Z (Z.of_nat a - 1)))
     / (s_W / PrimFloat.of_uint63
                (Uint63.of_Z (Z.of_nat N - Z.of_nat a))))%float.
Proof.
  intros Ha. unfold spec_pseudo_F. by rewrite !of_int_nonneg by lia.
Qed.

Lemma canonical_term_primitive (N a : nat) tri_idxs distances group_sizes grouping
    (i : nat) :
  canonical N a tri_idxs distances group_sizes grouping → (i < a)%nat →
  within_term a tri_idxs distances group_sizes grouping i
  = (np_sum
       (map (fun d => d * d)%float
          (map fst
             (filter (fun dg : float64 * Z => dg.2 = Z.of_nat i)
                (zip distances
                   (map (pair_code a grouping) (zip tri_idxs.1 tri_idxs.2))))))
     / PrimFloat.of_uint63 (Uint63.of_Z (group_count grouping i)))%float.
Proof.
  intros Hc Hi. unfold within_term.
  rewrite (canonical_sizes_lookup _ _ _ _ _ _ _ Hc Hi). simpl.
  rewrite of_int_nonneg by apply group_count_nonneg.
  by rewrite <- selected_within.
Qed.

Example triu_indices_4 :
  triu_indices 4 = ([0; 0; 0; 1; 1; 2]%nat, [1; 2; 3; 2; 3; 3]%nat).
Proof. reflexivity. Qed.

Example f_stat_two_tight_groups :
  (sum_sq [1; 10; 10; 10; 10; 1] / of_int 4 = 100.5)%float
  ∧ _compute_f_stat 4 2 (triu_indices 4) [1; 10; 10; 10; 10; 1]%float [2; 2]
      100.5%float [0; 0; 1; 1]
    = Ok 199%float.
Proof. split; reflexivity. Qed.

(** Ten entries: the first eight are added as a balanced tree, the last two
    join one by one; the result differs in the last digit from adding all
    ten from left to right. *)
Example np_sum_ten :
  let xs := map (fun k => 1 / of_int k)%float
                [3; 5; 7; 9; 11; 13; 15; 17; 19; 21] in
  let x := fun k : nat => nth k xs 0%float in
  np_sum xs
  = (0 + (((((x 0%nat + x 1%nat) + (x 2%nat + x 3%nat))
            + ((x 4%nat + x 5%nat) + (x 6%nat + x 7%nat)))
           + x 8%nat) + x 9%nat))%float
  ∧ (np_sum xs <? foldl PrimFloat.add 0 xs)%float = true.
Proof. split; reflexivity. Qed.

(** ** Renaming the groups *)

(** A map of 0..a-1 into itself that is one-to-one only reorders the
    codes. *)
Lemma codes_Permutation (pi : nat → nat) (a : nat) :
  (∀ i, (i < a)%nat → (pi i < a)%nat) →
  (∀ i j, (i < a)%nat → (j < a)%nat → pi i = pi j → i = j) →
  map pi (seq 0 a) ≡ₚ seq 0 a.
Proof.
  intros Hran Hinj. apply submseteq_length_Permutation.
  - apply NoDup_submseteq.
    + apply (NoDup_fmap_2_strong pi); [|apply NoDup_seq].
      intros x y Hx Hy. apply list_elem_of_In, in_seq in Hx, Hy.
      apply Hinj; lia.
    + intros j Hj. apply list_elem_of_In, in_map_iff in Hj as (i & <- & Hi).
      apply in_seq in Hi. apply list_elem_of_In, in_seq.
      specialize (Hran i). lia.
  - by rewrite length_map.
Qed.

Lemma pair_code_relabel (pi : nat → nat) (a : nat) (grouping : list Z)
    (rc : nat * nat) (i : nat) :
  (∀ i, (i < a)%nat → (pi i < a)%nat) →
  (∀ i j, (i < a)%nat → (j < a)%nat → pi i = pi j → i = j) →
  Forall (fun g => 0 ≤ g < Z.of_nat a) grouping →
  (i < a)%nat →
  pair_code a (relabel pi grouping) rc = Z.of_nat (pi i)
  ↔ pair_code a grouping rc = Z.of_nat i.
Proof.
  intros Hran Hinj Hcodes Hi. unfold pair_code, relabel.
  rewrite !list_lookup_fmap.
  destruct (grouping !! rc.1) as [x|] eqn:Hx; simpl; [|lia].
  destruct (grouping !! rc.2) as [y|] eqn:Hy; simpl; [|lia].
  pose proof (proj1 (Forall_lookup _ _) Hcodes _ _ Hx) as Hxa.
  pose proof (proj1 (Forall_lookup _ _) Hcodes _ _ Hy) as Hya.
  simpl in Hxa, Hya.
  assert (Z.to_nat x < a)%nat as Hnx by lia.
  assert (Z.to_nat y < a)%nat as Hny by lia.
  pose proof (Hran _ Hnx) as Hpx. pose proof (Hran _ Hny) as Hpy.
  pose proof (Hinj _ _ Hnx Hny) as Hxy. pose proof (Hinj _ _ Hnx Hi) as Hxi.
  destruct (decide (x = y)) as [<-|Hne].
  - rewrite decide_True by (split; [done|lia]).
    rewrite decide_True by (split; [done|lia]).
    split; [lia|]. intros ->. by rewrite Nat2Z.id.
  - rewrite decide_False by (intros [? _]; lia).
    rewrite decide_False by (intros [? _]; lia).
    lia.
Qed.

Lemma within_term_relabel (pi : nat → nat) (a : nat)
    (tri_idxs : list nat * list nat) (distances : list float64)
    (group_sizes group_sizes' : list Z) (grouping : list Z) (i : nat) :
  (∀ i, (i < a)%nat → (pi i < a)%nat) →
  (∀ i j, (i < a)%nat → (j < a)%nat → pi i = pi j → i = j) →
  Forall (fun g => 0 ≤ g < Z.of_nat a) grouping →
  (∀ i, (i < a)%nat → group_sizes' !! pi i = group_sizes !! i) →
  (i < a)%nat →
  within_term a tri_idxs distances group_sizes' (relabel pi grouping) (pi i)
  = within_term a tri_idxs distances group_sizes grouping i.
Proof.
  intros Hran Hinj Hcodes Hsz Hi. unfold within_term, within_distances.
  rewrite Hsz by done. do 3 f_equal.
  apply list_filter_iff. intros [d rc]. simpl.
  by apply pair_code_relabel.
Qed.

Lemma preimage_spec (pi : nat → nat) (a j : nat) :
  (∀ i, (i < a)%nat → (pi i < a)%nat) →
  (∀ i j, (i < a)%nat → (j < a)%nat → pi i = pi j → i = j) →
  (j < a)%nat →
  (preimage pi a j < a)%nat ∧ pi (preimage pi a j) = j.
Proof.
  intros Hran Hinj Hj. pose proof (codes_Permutation pi a Hran Hinj) as Hperm.
  assert (j ∈ map pi (seq 0 a)) as Hin
    by (rewrite Hperm; apply list_elem_of_In, in_seq; lia).
  apply list_elem_of_In, in_map_iff in Hin as (i & Hpi & Hi).
  destruct (list_find_elem_of (fun i => pi i = j) (seq 0 a) i) as [[k x] Hf];
    [by apply list_elem_of_In | done |].
  unfold preimage. rewrite Hf. simpl.
  apply list_find_Some in Hf as (Hk & Hx & _).
  apply list_elem_of_lookup_2, list_elem_of_In, in_seq in Hk. split; [lia|done].
Qed.

(** The order in which the relabelled call meets the groups. *)
Lemma preimage_order (pi : nat → nat) (a : nat) :
  (∀ i, (i < a)%nat → (pi i < a)%nat) →
  (∀ i j, (i < a)%nat → (j < a)%nat → pi i = pi j → i = j) →
  map pi (map (preimage pi a) (seq 0 a)) = seq 0 a
  ∧ map (preimage pi a) (seq 0 a) ≡ₚ seq 0 a.
Proof.
  intros Hran Hinj.
  assert (map pi (map (preimage pi a) (seq 0 a)) = seq 0 a) as Hmap.
  { rewrite map_map. rewrite <- (map_id (seq 0 a)) at 2.
    apply map_ext_in. intros j Hj. apply in_seq in Hj.
    apply preimage_spec; try done. lia. }
  split; [done|]. apply submseteq_length_Permutation.
  - apply NoDup_submseteq.
    + apply (NoDup_fmap_1 pi). change (NoDup (map pi (map (preimage pi a) (seq 0 a)))).
      rewrite Hmap. apply NoDup_seq.
    + intros i Hi. apply list_elem_of_In, in_map_iff in Hi as (j & <- & Hj).
      apply in_seq in Hj. apply list_elem_of_In, in_seq.
      destruct (preimage_spec pi a j Hran Hinj); lia.
  - by rewrite length_map.
Qed.

(** The relabelled call adds the terms of the groups in the order in which
    [pi] enumerates them. *)
Lemma spec_s_W_relabel (pi : nat → nat) (a : nat)
    (tri_idxs : list nat * list nat) (distances : list float64)
    (group_sizes group_sizes' : list Z) (grouping : list Z) :
  (∀ i, (i < a)%nat → (pi i < a)%nat) →
  (∀ i j, (i < a)%nat → (j < a)%nat → pi i = pi j → i = j) →
  Forall (fun g => 0 ≤ g < Z.of_nat a) grouping →
  (∀ i, (i < a)%nat → group_sizes' !! pi i = group_sizes !! i) →
  spec_s_W a tri_idxs distances group_sizes' (relabel pi grouping)
  = foldl (fun s_W i =>
             (s_W + within_term a tri_idxs distances group_sizes grouping i)%float)
          (of_int 0) (map (preimage pi a) (seq 0 a)).
Proof.
  intros Hran Hinj Hcodes Hsz. unfold spec_s_W. rewrite foldl_map.
  apply foldl_ext_in. intros s j Hj. apply list_elem_of_In, in_seq in Hj.
  destruct (preimage_spec pi a j Hran Hinj) as [Hlt Hpi]; [lia|].
  f_equal. rewrite <- Hpi at 1. by apply within_term_relabel.
Qed.

(** ** Counting the within-group pairs *)

Lemma pair_code_sym (a : nat) (grouping : list Z) (i j : nat) :
  pair_code a grouping (i, j) = pair_code a grouping (j, i).
Proof.
  unfold pair_code; simpl.
  destruct (grouping !! i) as [g|], (grouping !! j) as [h|]; try done.
  destruct (decide (g = h)) as [->|Hne]; [done|].
  rewrite !decide_False; [done | intros [? _]; congruence | intros [? _]; congruence].
Qed.

Lemma pair_code_eq_iff (a : nat) (grouping : list Z) (rc : nat * nat) (g : Z) :
  0 ≤ g < Z.of_nat a →
  pair_code a grouping rc = g
  ↔ grouping !! rc.1 = Some g ∧ grouping !! rc.2 = Some g.
Proof.
  intros Hg. unfold pair_code.
  destruct (grouping !! rc.1) as [x|], (grouping !! rc.2) as [y|];
    try (split; [lia | by intros [? ?]]).
  case_decide as Hd.
  - destruct Hd as [<- Hx]. split; [by intros -> | by intros [[= ->] _]].
  - split; [lia|]. intros [[= ->] [= ->]]. exfalso. apply Hd. by split.
Qed.

Lemma pair_code_cross (a : nat) (grouping : list Z) (rc : nat * nat) :
  grouping !! rc.1 ≠ grouping !! rc.2 → pair_code a grouping rc = -1.
Proof.
  intros Hne. unfold pair_code.
  destruct (grouping !! rc.1) as [x|], (grouping !! rc.2) as [y|]; try done.
  rewrite decide_False; [done|]. intros [-> _]. by apply Hne.
Qed.

Lemma length_filter_map {A B : Type} (P : B → Prop) `{∀ y, Decision (P y)}
    (f : A → B) (l : list A) :
  length (filter P (map f l)) = length (filter (fun x => P (f x)) l).
Proof.
  induction l as [|x l IH]; simpl; [done|].
  rewrite !filter_cons. destruct (decide (P (f x))); simpl; by rewrite IH.
Qed.

Lemma elem_of_colmajor_pairs (n i j : nat) :
  (i, j) ∈ colmajor_pairs n ↔ (i < j < n)%nat.
Proof.
  unfold colmajor_pairs. rewrite list_elem_of_In, in_flat_map. split.
  - intros (y & Hy & Hin). apply in_seq in Hy.
    apply in_map_iff in Hin as (x & [= -> ->] & Hx). apply in_seq in Hx. lia.
  - intros Hij. exists j. split; [apply in_seq; lia|].
    apply in_map_iff. exists i. split; [done|]. apply in_seq. lia.
Qed.

Lemma NoDup_triu_pairs (n : nat) : NoDup (triu_pairs n).
Proof.
  unfold triu_pairs.
  change (NoDup (seq 0 n ≫= (fun i => map (pair i) (seq (S i) (n - S i))))).
  apply NoDup_bind; [| |apply NoDup_seq].
  - intros i1 i2 [x y] _ _ H1 H2.
    apply list_elem_of_In, in_map_iff in H1 as (? & [= <- _] & _).
    by apply list_elem_of_In, in_map_iff in H2 as (? & [= <- _] & _).
  - intros i _. apply (NoDup_fmap_2 (pair i)), NoDup_seq.
Qed.

Lemma NoDup_colmajor_pairs (n : nat) : NoDup (colmajor_pairs n).
Proof.
  unfold colmajor_pairs.
  change (NoDup (seq 0 n ≫= (fun j => map (fun i => (i, j)) (seq 0 j)))).
  apply NoDup_bind; [| |apply NoDup_seq].
  - intros j1 j2 [x y] _ _ H1 H2.
    apply list_elem_of_In, in_map_iff in H1 as (? & [= _ <-] & _).
    by apply list_elem_of_In, in_map_iff in H2 as (? & [= _ <-] & _).
  - intros j _. apply (NoDup_fmap_2_strong (fun i => (i, j))), NoDup_seq.
    by intros ?? _ _ [= ->].
Qed.

Lemma triu_colmajor (n : nat) : triu_pairs n ≡ₚ colmajor_pairs n.
Proof.
  apply NoDup_Permutation;
    [apply NoDup_triu_pairs | apply NoDup_colmajor_pairs |].
  intros [i j]. by rewrite elem_of_triu_pairs, elem_of_colmajor_pairs.
Qed.

Lemma colmajor_pairs_S (n : nat) :
  colmajor_pairs (S n) = colmajor_pairs n ++ map (fun i => (i, n)) (seq 0 n).
Proof.
  unfold colmajor_pairs. rewrite seq_S, flat_map_app. simpl.
  by rewrite app_nil_r.
Qed.

(** The objects before position [n] that carry [g], counted on the
    positions and on the entries. *)
Lemma count_positions (grouping : list Z) (g : Z) (n : nat) :
  (n ≤ length grouping)%nat →
  length (filter (fun i => grouping !! i = Some g) (seq 0 n))
  = occurrences g (take n grouping).
Proof.
  unfold occurrences. induction n as [|n IH]; intros Hn; [done|].
  destruct (lookup_lt_is_Some_2 grouping n) as [x Hx]; [lia|].
  rewrite seq_S, (take_S_r _ _ _ Hx), !filter_app, !length_app, IH by lia.
  f_equal. simpl. rewrite !filter_cons, !filter_nil, Hx.
  destruct (decide (x = g)) as [->|Hne].
  - by rewrite decide_True.
  - rewrite decide_False; [done|]. by intros [= ->].
Qed.

(** Among the first [n] objects, [m] of them in group [g], the pairs inside
    the group number m (m - 1) / 2. *)
Lemma count_within_pairs (grouping : list Z) (g : Z) (n : nat) :
  (n ≤ length grouping)%nat →
  (2 * length (filter (fun rc : nat * nat =>
                         grouping !! rc.1 = Some g ∧ grouping !! rc.2 = Some g)
                      (colmajor_pairs n))
   + occurrences g (take n grouping)
   = occurrences g (take n grouping) * occurrences g (take n grouping))%nat.
Proof.
  induction n as [|n IH]; intros Hn; [done|].
  destruct (lookup_lt_is_Some_2 grouping n) as [x Hx]; [lia|].
  specialize (IH ltac:(lia)).
  pose proof (count_positions grouping g n ltac:(lia)) as Hc.
  rewrite colmajor_pairs_S, filter_app, length_app, length_filter_map.
  unfold occurrences in *.
  rewrite (take_S_r _ _ _ Hx), filter_app, length_app.
  rewrite filter_cons, filter_nil. cbn [fst snd].
  destruct (decide (x = g)) as [->|Hne].
  - rewrite (list_filter_iff
               (fun i : nat => grouping !! i = Some g ∧ grouping !! n = Some g)
               (fun i : nat => grouping !! i = Some g))
      by (intros i; tauto).
    rewrite Hc. simpl length. nia.
  - assert (filter (fun i : nat => grouping !! i = Some g ∧ grouping !! n = Some g)
                   (seq 0 n) = []) as ->.
    { clear Hc IH. induction (seq 0 n) as [|i l IHl]; [done|].
      rewrite filter_cons_False; [done|]. rewrite Hx. by intros [_ [= ->]]. }
    simpl length. nia.
Qed.

(** ** The claims about the statistic *)

Ltac canonical_by_computation :=
  split; simpl;
  [ lia | reflexivity | repeat constructor; lia | reflexivity | reflexivity
  | reflexivity | reflexivity | repeat constructor; lia ].

(** C1.  On every canonical input with 2 <= a < N the procedure returns
    (s_A / (a - 1)) / (s_W / (N - a)) with s_A = s_T - s_W, where s_W is
    the sum, over the codes i of 0..a-1 in turn, of the sum of the squared
    distances whose aligned entry of grouping_tri is i, divided by the size
    of group i; grouping_tri holds at each position the common code of the
    pair of objects there, or -1.  The subtraction, the additions, the
    squares and the divisions are those of binary64; a sum of fewer than
    eight squares is added from left to right. *)
Theorem compute_f_stat_formula (N a : nat) (tri_idxs : list nat * list nat)
    (distances : list float64) (group_sizes : list Z) (s_T : float64)
    (grouping : list Z) :
  canonical N a tri_idxs distances group_sizes grouping →
  ∃ (grouping_matrix : matrix) (grouping_tri : list Z),
    grouping_matrix_of (N, N) a grouping = Ok grouping_matrix
    ∧ getitem grouping_matrix tri_idxs = Ok grouping_tri
    ∧ grouping_tri = map (pair_code a grouping) (zip tri_idxs.1 tri_idxs.2)
    ∧ (∀ i, (i < a)%nat → group_sizes !! i = Some (group_count grouping i))
    ∧ let squares := fun i : nat =>
        map (fun d => d * d)%float
          (map fst (filter (fun dg : float64 * Z => dg.2 = Z.of_nat i)
                      (zip distances grouping_tri))) in
      let s_W :=
        foldl (fun s_W i =>
                 (s_W + np_sum (squares i)
                        / PrimFloat.of_uint63
                            (Uint63.of_Z (group_count grouping i)))%float)
              0%float (seq 0 a) in
      let s_A := (s_T - s_W)%float in
      _compute_f_stat N a tri_idxs distances group_sizes s_T grouping
      = Ok ((s_A / PrimFloat.of_uint63 (Uint63.of_Z (Z.of_nat a - 1)))
            / (s_W / PrimFloat.of_uint63
                       (Uint63.of_Z (Z.of_nat N - Z.of_nat a))))%float
      ∧ ∀ i, (length (squares i) < 8)%nat →
             np_sum (squares i)
             = (0 + foldl PrimFloat.add 0 (squares i))%float.
Proof.
  intros Hc. pose proof (canonical_bounds _ _ _ _ _ _ Hc) as Hb.
  destruct (grouping_matrix_spec N a grouping) as (M & HM & _ & Hcell);
    [by rewrite (can_grouping _ _ _ _ _ _ Hc)|].
  exists M, (map (pair_code a grouping) (zip tri_idxs.1 tri_idxs.2)).
  split; [done|]. split.
  { apply (getitem_spec M N); [done | apply (can_tri_len _ _ _ _ _ _ Hc) |].
    eapply Forall_impl; [exact Hb|]. simpl. lia. }
  split; [done|]. split.
  { intros i Hi. by apply (canonical_sizes_lookup N a tri_idxs distances). }
  cbv zeta. split; [|intros i Hi; by apply np_sum_short].
  rewrite (canonical_returns _ _ _ _ _ _ _ Hc).
  rewrite spec_pseudo_F_primitive by (destruct Hc; lia).
  unfold spec_s_W. change (of_int 0) with 0%float.
  rewrite (foldl_ext_in _
             (fun s_W i =>
                (s_W + np_sum
                         (map (fun d => d * d)%float
                            (map fst
                               (filter
                                  (fun dg : float64 * Z => dg.2 = Z.of_nat i)
                                  (zip distances
                                     (map (pair_code a grouping)
                                        (zip tri_idxs.1 tri_idxs.2))))))
                       / PrimFloat.of_uint63
                           (Uint63.of_Z (group_count grouping i)))%float));
    [done|].
  intros s i Hi. apply list_elem_of_In, in_seq in Hi.
  by rewrite (canonical_term_primitive N) by (done || lia).
Qed.

Lemma compute_f_stat_formula_witness :
  ∃ (grouping_matrix : matrix) (grouping_tri : list Z),
    grouping_matrix_of (3, 3)%nat 2 [0; 0; 1] = Ok grouping_matrix
    ∧ getitem grouping_matrix (triu_indices 3) = Ok grouping_tri
    ∧ grouping_tri
      = map (pair_code 2 [0; 0; 1])
            (zip (triu_indices 3).1 (triu_indices 3).2)
    ∧ (∀ i, (i < 2)%nat → [2; 1] !! i = Some (group_count [0; 0; 1] i))
    ∧ let squares := fun i : nat =>
        map (fun d => d * d)%float
          (map fst (filter (fun dg : float64 * Z => dg.2 = Z.of_nat i)
                      (zip [1; 10; 10]%float grouping_tri))) in
      let s_W :=
        foldl (fun s_W i =>
                 (s_W + np_sum (squares i)
                        / PrimFloat.of_uint63
                            (Uint63.of_Z (group_count [0; 0; 1]%Z i)))%float)
              0%float (seq 0 2) in
      let s_A := (67 - s_W)%float in
      _compute_f_stat 3 2 (triu_indices 3) [1; 10; 10]%float [2; 1] 67%float
        [0; 0; 1]
      = Ok ((s_A / PrimFloat.of_uint63 (Uint63.of_Z (Z.of_nat 2 - 1)))
            / (s_W / PrimFloat.of_uint63
                       (Uint63.of_Z (Z.of_nat 3 - Z.of_nat 2))))%float
      ∧ ∀ i, (length (squares i) < 8)%nat →
             np_sum (squares i)
             = (0 + foldl PrimFloat.add 0 (squares i))%float.
Proof.
  apply (compute_f_stat_formula 3 2 (triu_indices 3) [1; 10; 10]%float [2; 1]
           67%float [0; 0; 1]).
  canonical_by_computation.
Defined.

(** Three objects, the first two in one group at distance 1: s_W is
    1 / 2, s_T is 201 / 3 and the pseudo-F is (66.5 / 1) / (0.5 / 1). *)
Example f_stat_three_objects :
  (sum_sq [1; 10; 10] / of_int 3 = 67)%float
  ∧ within_group_ss 2 [1; 10; 10]%float [2; 1] [0; -1; -1] = Ok 0.5%float
  ∧ _compute_f_stat 3 2 (triu_indices 3) [1; 10; 10]%float [2; 1] 67%float
      [0; 0; 1]
    = Ok 133%float.
Proof. repeat split; reflexivity. Qed.

(** C7, as the code has it.  On a canonical input the within-group sum of
    squares the code computes is never below zero (it is >= 0 or nan), and
    whenever it is not larger than the total sum of squares handed in, or
    the between-group sum of squares s_A = s_T - s_W the code computes is
    not below zero, the value returned is not below zero either: it is
    >= 0, +inf included, or it is nan (from 0/0 or inf/inf). *)
Theorem f_stat_nonneg_when_within_le_total (N a : nat)
    (tri_idxs : list nat * list nat) (distances : list float64)
    (group_sizes : list Z) (s_T : float64) (grouping : list Z) :
  canonical N a tri_idxs distances group_sizes grouping →
  ∃ (grouping_matrix : matrix) (grouping_tri : list Z) (s_W F : float64),
    grouping_matrix_of (N, N) a grouping = Ok grouping_matrix
    ∧ getitem grouping_matrix tri_idxs = Ok grouping_tri
    ∧ within_group_ss a distances group_sizes grouping_tri = Ok s_W
    ∧ _compute_f_stat N a tri_idxs distances group_sizes s_T grouping = Ok F
    ∧ F = (((s_T - s_W) / PrimFloat.of_uint63 (Uint63.of_Z (Z.of_nat a - 1)))
           / (s_W / PrimFloat.of_uint63
                      (Uint63.of_Z (Z.of_nat N - Z.of_nat a))))%float
    ∧ ((0 <=? s_W)%float = true ∨ s_W = nan)
    ∧ ((s_W <=? s_T)%float = true ∨ (0 <=? s_T - s_W)%float = true →
       (0 <=? F)%float = true ∨ F = nan).
Proof.
  intros Hc. pose proof (canonical_bounds _ _ _ _ _ _ Hc) as Hb.
  pose proof (canonical_sizes_length _ _ _ _ _ _ Hc) as Hs.
  pose proof (canonical_s_W_clear _ _ _ _ _ _ Hc) as Hw.
  destruct (grouping_matrix_spec N a grouping) as (M & HM & _ & Hcell);
    [by rewrite (can_grouping _ _ _ _ _ _ Hc)|].
  exists M, (map (pair_code a grouping) (zip tri_idxs.1 tri_idxs.2)),
    (spec_s_W a tri_idxs distances group_sizes grouping).
  eexists. split; [done|]. split.
  { apply (getitem_spec M N); [done | apply (can_tri_len _ _ _ _ _ _ Hc) |].
    eapply Forall_impl; [exact Hb|]. simpl. lia. }
  split; [destruct Hc; apply within_group_ss_spec; (done || lia)|].
  split; [by apply canonical_returns|].
  split; [apply spec_pseudo_F_primitive; destruct Hc; lia|].
  split; [by apply not_negative_leb, sign_clear_not_negative|].
  intros HA. apply not_negative_leb. unfold spec_pseudo_F.
  apply div_not_negative.
  - apply div_not_negative.
    + destruct HA as [HA|HA];
        [by apply leb_sub_not_negative | by apply leb_zero_not_negative].
    + apply of_int_clear. destruct Hc. lia.
  - apply div_clear; [done|]. apply of_int_clear. destruct Hc. lia.
Qed.

Lemma f_stat_nonneg_when_within_le_total_witness :
  ∃ F : float64,
    _compute_f_stat 4 2 (triu_indices 4) [1; 10; 10; 10; 10; 1]%float [2; 2]
      100.5%float [0; 0; 1; 1] = Ok F
    ∧ ((0 <=? F)%float = true ∨ F = nan).
Proof.
  destruct (f_stat_nonneg_when_within_le_total 4 2 (triu_indices 4)
              [1; 10; 10; 10; 10; 1]%float [2; 2] 100.5%float [0; 0; 1; 1])
    as (M & grouping_tri & s_W & F & HM & Htri & HW & HF & _ & _ & Hsign).
  - canonical_by_computation.
  - exists F. split; [exact HF|]. apply Hsign. left.
    vm_compute in HM. injection HM as <-.
    vm_compute in Htri. injection Htri as <-.
    vm_compute in HW. injection HW as <-.
    reflexivity.
Defined.

(** C7, as stated, fails.  Four objects, two groups of two; the two
    objects of a group lie at distance 2, objects of different groups at
    distance 1 (a metric: every triangle inequality holds).  All distances
    are non-negative, every group is inhabited, the total sum of squares is
    the one [permanova] computes, 12 / 4; the within-group sum of squares
    is 4 and the value returned is -0.5. *)
Lemma f_stat_negative :
  canonical 4 2 (triu_indices 4) [2; 1; 1; 1; 1; 2]%float [2; 2] [0; 0; 1; 1]
  ∧ Forall (fun d => (0 <=? d)%float = true) [2; 1; 1; 1; 1; 2]%float
  ∧ (sum_sq [2; 1; 1; 1; 1; 2] / of_int 4 = 3)%float
  ∧ _compute_f_stat 4 2 (triu_indices 4) [2; 1; 1; 1; 1; 2]%float [2; 2]
      3%float [0; 0; 1; 1] = Ok (-0.5)%float
  ∧ (-0.5 <? 0)%float = true
  ∧ ¬ ∃ F, _compute_f_stat 4 2 (triu_indices 4) [2; 1; 1; 1; 1; 2]%float
             [2; 2] 3%float [0; 0; 1; 1] = Ok F
           ∧ (0 <=? F)%float = true.
Proof.
  split; [canonical_by_computation|].
  split; [by repeat constructor|].
  split; [reflexivity|]. split; [reflexivity|]. split; [reflexivity|].
  intros (F & HF & Hpos). vm_compute in HF. injection HF as <-.
  vm_compute in Hpos. discriminate.
Qed.

Lemma two_terms_commute (t : nat → float64) (x y : nat) :
  sign_clear (Prim2SF (t x)) → sign_clear (Prim2SF (t y)) →
  foldl (fun s i => s + t i)%float 0%float [x; y]
  = foldl (fun s i => s + t i)%float 0%float [y; x].
Proof. intros Hx Hy. simpl. rewrite !zero_add by done. apply add_comm. Qed.

Lemma order_of_two (pi : nat → nat) (order : list nat) :
  map pi order = [0; 1]%nat → order ≡ₚ [0; 1]%nat →
  order = [0; 1]%nat ∨ order = [1; 0]%nat.
Proof.
  intros Hmap Hperm. pose proof (Permutation_length Hperm) as Hlen.
  destruct order as [|x [|y [|z order]]]; try done.
  assert (x ∈ [0; 1]%nat) as Hx by (rewrite <- Hperm; apply list_elem_of_here).
  assert (y ∈ [0; 1]%nat) as Hy
    by (rewrite <- Hperm; apply list_elem_of_further, list_elem_of_here).
  injection Hmap as Hpx Hpy.
  apply elem_of_cons in Hx as [->|Hx]; apply elem_of_cons in Hy as [->|Hy];
    try apply list_elem_of_singleton in Hx as ->;
    try apply list_elem_of_singleton in Hy as ->;
    try congruence; auto.
Qed.

(** C10, as the code has it.  On a canonical input, renaming the group
    codes by a one-to-one map [pi] of 0..a-1 onto itself, in the grouping
    and in the array of group sizes alike, leaves the term of every group,
    its sum of squared distances over its size, unchanged; the renamed call
    adds these terms into s_W in the order in which [pi] enumerates the
    groups, the group sent to 0 first.  With two groups the value returned
    is the same, bit for bit. *)
Theorem f_stat_relabel_reorders (N a : nat) (tri_idxs : list nat * list nat)
    (distances : list float64) (group_sizes group_sizes' : list Z)
    (s_T : float64) (grouping : list Z) (pi : nat → nat) :
  canonical N a tri_idxs distances group_sizes grouping →
  (∀ i, (i < a)%nat → (pi i < a)%nat) →
  (∀ i j, (i < a)%nat → (j < a)%nat → pi i = pi j → i = j) →
  length group_sizes' = a →
  (∀ i, (i < a)%nat → group_sizes' !! pi i = group_sizes !! i) →
  ∃ (grouping_matrix : matrix) (grouping_tri : list Z) (order : list nat),
    grouping_matrix_of (N, N) a grouping = Ok grouping_matrix
    ∧ getitem grouping_matrix tri_idxs = Ok grouping_tri
    ∧ map pi order = seq 0 a
    ∧ order ≡ₚ seq 0 a
    ∧ let term := fun i : nat =>
        (np_sum
           (map (fun d => d * d)%float
              (map fst (filter (fun dg : float64 * Z => dg.2 = Z.of_nat i)
                          (zip distances grouping_tri))))
         / PrimFloat.of_uint63 (Uint63.of_Z (group_count grouping i)))%float in
      let pseudo_F := fun codes : list nat =>
        let s_W := foldl (fun s_W i => s_W + term i)%float 0%float codes in
        (((s_T - s_W) / PrimFloat.of_uint63 (Uint63.of_Z (Z.of_nat a - 1)))
         / (s_W / PrimFloat.of_uint63
                    (Uint63.of_Z (Z.of_nat N - Z.of_nat a))))%float in
      _compute_f_stat N a tri_idxs distances group_sizes s_T grouping
      = Ok (pseudo_F (seq 0 a))
      ∧ _compute_f_stat N a tri_idxs distances group_sizes' s_T
          (relabel pi grouping)
        = Ok (pseudo_F order)
      ∧ (a = 2%nat → pseudo_F order = pseudo_F (seq 0 a)).
Proof.
  intros Hc Hran Hinj Hlen' Hsz.
  pose proof (canonical_bounds _ _ _ _ _ _ Hc) as Hb.
  destruct (preimage_order pi a Hran Hinj) as [Hmap Hperm].
  destruct (grouping_matrix_spec N a grouping) as (M & HM & _ & Hcell);
    [by rewrite (can_grouping _ _ _ _ _ _ Hc)|].
  exists M, (map (pair_code a grouping) (zip tri_idxs.1 tri_idxs.2)),
    (map (preimage pi a) (seq 0 a)).
  split; [done|]. split.
  { apply (getitem_spec M N); [done | apply (can_tri_len _ _ _ _ _ _ Hc) |].
    eapply Forall_impl; [exact Hb|]. simpl. lia. }
  split; [done|]. split; [done|]. cbv zeta.
  set (term := fun i : nat =>
        (np_sum
           (map (fun d => d * d)%float
              (map fst (filter (fun dg : float64 * Z => dg.2 = Z.of_nat i)
                          (zip distances
                             (map (pair_code a grouping)
                                (zip tri_idxs.1 tri_idxs.2))))))
         / PrimFloat.of_uint63 (Uint63.of_Z (group_count grouping i)))%float).
  assert (∀ l : list nat, (∀ i, i ∈ l → (i < a)%nat) →
            foldl (fun s_W i =>
                     (s_W + within_term a tri_idxs distances group_sizes
                              grouping i)%float) (of_int 0) l
            = foldl (fun s_W i => s_W + term i)%float 0%float l) as Hterms.
  { intros l Hl. change (of_int 0) with 0%float. apply foldl_ext_in.
    intros s i Hi. by rewrite (canonical_term_primitive N) by auto. }
  assert (∀ i, i ∈ map (preimage pi a) (seq 0 a) → (i < a)%nat) as Horder.
  { intros i Hi. rewrite Hperm in Hi. apply list_elem_of_In, in_seq in Hi. lia. }
  split; [|split].
  - rewrite (canonical_returns _ _ _ _ _ _ _ Hc).
    rewrite spec_pseudo_F_primitive by (destruct Hc; lia).
    unfold spec_s_W. rewrite Hterms; [done|].
    intros i Hi. apply list_elem_of_In, in_seq in Hi. lia.
  - rewrite compute_f_stat_spec.
    + rewrite spec_pseudo_F_primitive by (destruct Hc; lia).
      rewrite (spec_s_W_relabel pi a tri_idxs distances group_sizes)
        by (done || apply (can_codes _ _ _ _ _ _ Hc)).
      by rewrite Hterms.
    + unfold relabel. rewrite length_map. destruct Hc. lia.
    + apply (can_tri_len _ _ _ _ _ _ Hc).
    + eapply Forall_impl; [exact Hb|]. simpl. lia.
    + apply (can_distances _ _ _ _ _ _ Hc).
    + lia.
    + destruct Hc. lia.
  - intros ->. simpl seq in *.
    assert (∀ i, (i < 2)%nat → sign_clear (Prim2SF (term i))) as Hclear.
    { intros i Hi. unfold term.
      rewrite <- (canonical_term_primitive N 2 tri_idxs distances group_sizes)
        by done.
      by apply (canonical_term_clear N). }
    destruct (order_of_two pi _ Hmap Hperm) as [-> | ->]; [done|].
    by rewrite (two_terms_commute term 1 0) by (apply Hclear; lia).
Qed.

Lemma f_stat_relabel_reorders_witness :
  ∃ (grouping_matrix : matrix) (grouping_tri : list Z) (order : list nat),
    grouping_matrix_of (3, 3)%nat 2 [0; 0; 1] = Ok grouping_matrix
    ∧ getitem grouping_matrix (triu_indices 3) = Ok grouping_tri
    ∧ map (fun i => 1 - i)%nat order = seq 0 2
    ∧ order ≡ₚ seq 0 2
    ∧ let term := fun i : nat =>
        (np_sum
           (map (fun d => d * d)%float
              (map fst (filter (fun dg : float64 * Z => dg.2 = Z.of_nat i)
                          (zip [1; 10; 10]%float grouping_tri))))
         / PrimFloat.of_uint63
             (Uint63.of_Z (group_count [0; 0; 1]%Z i)))%float in
      let pseudo_F := fun codes : list nat =>
        let s_W := foldl (fun s_W i => s_W + term i)%float 0%float codes in
        (((67 - s_W) / PrimFloat.of_uint63 (Uint63.of_Z (Z.of_nat 2 - 1)))
         / (s_W / PrimFloat.of_uint63
                    (Uint63.of_Z (Z.of_nat 3 - Z.of_nat 2))))%float in
      _compute_f_stat 3 2 (triu_indices 3) [1; 10; 10]%float [2; 1] 67%float
        [0; 0; 1]
      = Ok (pseudo_F (seq 0 2))
      ∧ _compute_f_stat 3 2 (triu_indices 3) [1; 10; 10]%float [1; 2] 67%float
          (relabel (fun i => 1 - i)%nat [0; 0; 1])
        = Ok (pseudo_F order)
      ∧ (2%nat = 2%nat → pseudo_F order = pseudo_F (seq 0 2)).
Proof.
  apply (f_stat_relabel_reorders 3 2 (triu_indices 3) [1; 10; 10]%float
           [2; 1] [1; 2] 67%float [0; 0; 1] (fun i => 1 - i)%nat).
  - canonical_by_computation.
  - intros i Hi. lia.
  - intros i j Hi Hj. lia.
  - reflexivity.
  - intros [|[|i]] Hi; [reflexivity | reflexivity | lia].
Defined.

(** C10, as stated, fails.  Six objects in three groups of two; the two
    objects of a group lie at distance 1/10, 1/10 and 3/10, objects of
    different groups at distance 1; s_T is the one [permanova] computes.
    Reversing the codes 0, 1, 2 makes the code add the same three terms in
    the opposite order, and the value returned is smaller by one unit in
    the last place. *)
Lemma f_stat_relabel_changes :
  let tenth := (1 / 10)%float in
  let distances :=
    [tenth; 1; 1; 1; 1; 1; 1; 1; 1; tenth; 1; 1; 1; 1; 3 / 10]%float in
  let grouping := [0; 0; 1; 1; 2; 2] in
  let pi := fun i => (2 - i)%nat in
  let s_T := (sum_sq distances / of_int 6)%float in
  canonical 6 3 (triu_indices 6) distances [2; 2; 2] grouping
  ∧ (∀ i, (i < 3)%nat → (pi i < 3)%nat)
  ∧ (∀ i j, (i < 3)%nat → (j < 3)%nat → pi i = pi j → i = j)
  ∧ (∀ i, (i < 3)%nat → [2; 2; 2] !! pi i = [2; 2; 2] !! i)
  ∧ relabel pi grouping = [2; 2; 1; 1; 0; 0]
  ∧ ∃ x y,
      _compute_f_stat 6 3 (triu_indices 6) distances [2; 2; 2] s_T grouping
      = Ok x
      ∧ _compute_f_stat 6 3 (triu_indices 6) distances [2; 2; 2] s_T
          (relabel pi grouping) = Ok y
      ∧ (y <? x)%float = true
      ∧ x ≠ y.
Proof.
  cbv zeta. split; [canonical_by_computation|].
  split; [intros i Hi; lia|]. split; [intros i j Hi Hj; lia|].
  split; [by intros [|[|[|i]]] Hi; try lia|].
  split; [reflexivity|].
  eexists _, _. split; [vm_compute; reflexivity|].
  split; [vm_compute; reflexivity|]. split; [reflexivity|].
  intros Heq. apply (f_equal Prim2SF) in Heq. vm_compute in Heq. discriminate.
Qed.

(** C3.  For a grouping over N objects the loop of [_compute_f_stat]
    builds an N-by-N matrix that is symmetric, holds the code g at (i, j)
    exactly when objects i and j both carry g (the diagonal included) and
    -1 everywhere else; and its extraction at index pairs that list every
    unordered pair once, row below column, holds each group code once per
    unordered pair inside that group and -1 for every pair across
    groups. *)
Theorem grouping_matrix_marks_within_pairs (N a : nat) (grouping : list Z) :
  length grouping = N →
  ∃ M,
    grouping_matrix_of (N, N) a grouping = Ok M
    ∧ (∀ tri_idxs distances group_sizes s_T,
         _compute_f_stat N a tri_idxs distances group_sizes s_T grouping
         = (grouping_tri ← getitem M tri_idxs;
            s_W ← within_group_ss a distances group_sizes grouping_tri;
            f_ratio N a s_T s_W))
    ∧ marks_groups N a grouping M
    ∧ ∀ tri_idxs,
        length tri_idxs.1 = length tri_idxs.2 →
        zip tri_idxs.1 tri_idxs.2 ≡ₚ triu_pairs N →
        ∃ grouping_tri,
          getitem M tri_idxs = Ok grouping_tri
          ∧ counts_within_pairs a grouping tri_idxs grouping_tri.
Proof.
  intros HN.
  destruct (grouping_matrix_spec N a grouping) as (M & HM & Hdims & Hcell);
    [lia|].
  exists M. split; [done|]. split.
  { intros. unfold _compute_f_stat. by rewrite HM. }
  split.
  { split; [done|]. split; [|split].
    - intros i j Hi Hj. rewrite !Hcell by done. f_equal. apply pair_code_sym.
    - intros i j g Hi Hj Hg. rewrite Hcell by done.
      rewrite <- (pair_code_eq_iff a grouping (i, j) g Hg).
      split; [by intros [= ->] | by intros ->].
    - intros i j Hi Hj Hno. rewrite Hcell by done. f_equal.
      unfold pair_code; simpl.
      destruct (grouping !! i) as [x|], (grouping !! j) as [y|]; try done.
      rewrite decide_False; [done|]. intros [<- Hx]. apply Hno. by exists x. }
  intros tri_idxs Hlen Hperm.
  assert (Forall (fun rc : nat * nat => (rc.1 < N)%nat ∧ (rc.2 < N)%nat)
            (zip tri_idxs.1 tri_idxs.2)) as Hb.
  { rewrite Hperm. apply Forall_forall. intros [i j] Hin.
    apply elem_of_triu_pairs in Hin. simpl. lia. }
  exists (map (pair_code a grouping) (zip tri_idxs.1 tri_idxs.2)).
  split; [by apply (getitem_spec M N)|].
  assert (∀ k r c, tri_idxs.1 !! k = Some r → tri_idxs.2 !! k = Some c →
            map (pair_code a grouping) (zip tri_idxs.1 tri_idxs.2) !! k
            = Some (pair_code a grouping (r, c))) as Hk.
  { intros k r c Hr Hc.
    by rewrite list_lookup_fmap, lookup_zip_with, Hr, Hc. }
  split; [|split; [|split]].
  - rewrite length_map, length_zip_with. lia.
  - intros k r c g Hr Hc Hg. rewrite (Hk k r c) by done.
    rewrite <- (pair_code_eq_iff a grouping (r, c) g Hg).
    split; [by intros [= ->] | by intros ->].
  - intros k r c Hr Hc Hne. rewrite (Hk k r c) by done. f_equal.
    by apply pair_code_cross.
  - intros g Hg. unfold occurrences at 1.
    rewrite (length_filter_map (fun x => x = g)).
    rewrite (list_filter_iff _
               (fun rc : nat * nat =>
                  grouping !! rc.1 = Some g ∧ grouping !! rc.2 = Some g))
      by (intros rc; by apply pair_code_eq_iff).
    rewrite Hperm, triu_colmajor.
    pose proof (count_within_pairs grouping g N ltac:(lia)) as Hcount.
    rewrite take_ge in Hcount by lia. nia.
Qed.

Lemma grouping_matrix_marks_within_pairs_witness :
  ∃ M,
    grouping_matrix_of (3, 3)%nat 2 [0; 0; 1] = Ok M
    ∧ (∀ tri_idxs distances group_sizes s_T,
         _compute_f_stat 3 2 tri_idxs distances group_sizes s_T [0; 0; 1]
         = (grouping_tri ← getitem M tri_idxs;
            s_W ← within_group_ss 2 distances group_sizes grouping_tri;
            f_ratio 3 2 s_T s_W))
    ∧ marks_groups 3 2 [0; 0; 1] M
    ∧ ∀ tri_idxs,
        length tri_idxs.1 = length tri_idxs.2 →
        zip tri_idxs.1 tri_idxs.2 ≡ₚ triu_pairs 3 →
        ∃ grouping_tri,
          getitem M tri_idxs = Ok grouping_tri
          ∧ counts_within_pairs 2 [0; 0; 1] tri_idxs grouping_tri.
Proof.
  apply (grouping_matrix_marks_within_pairs 3 2 [0; 0; 1]). reflexivity.
Defined.

Example grouping_matrix_3 :
  grouping_matrix_of (3, 3)%nat 2 [0; 0; 1]
  = Ok [[0; 0; -1]; [0; 0; -1]; [-1; -1; 1]]
  ∧ getitem [[0; 0; -1]; [0; 0; -1]; [-1; -1; 1]] (triu_indices 3)
    = Ok [0; -1; -1].
Proof. split; reflexivity. Qed.

(** C9.  The deprecated class, holding the same canonical values in its
    attributes, computes through [_run] and its [_compute_f_stat] method
    exactly what the procedural [_compute_f_stat] computes, exceptions
    included. *)
Theorem class_run_agrees {label : Type} (N : nat) (groups : list label)
    (tri_idxs : list nat * list nat) (distances : list float64)
    (group_sizes : list Z) (s_T : float64) (grouping : list Z) :
  PERMANOVA._run
    (PERMANOVA.Build_self (N, N) groups tri_idxs distances group_sizes
       (length groups) s_T)
    grouping
  = _compute_f_stat N (length groups) tri_idxs distances group_sizes s_T
      grouping.
Proof.
  unfold PERMANOVA._run, PERMANOVA._compute_f_stat, _compute_f_stat,
    grouping_matrix_of, within_group_ss, f_ratio.
  cbn [PERMANOVA._dm_shape PERMANOVA._groups PERMANOVA._tri_idxs
       PERMANOVA._distances PERMANOVA._group_sizes PERMANOVA._num_groups
       PERMANOVA._s_T fst snd].
  destruct (for_each _ (seq 0 (length groups)) (minus_ones (N, N)))
    as [M|e]; [|done].
  cbn [mbind result_bind].
  destruct (getitem M tri_idxs) as [grouping_tri|e]; done.
Qed.
(** ** The permutation test *)

Lemma Qdiv_pos (x y : Q) : (0 < x → 0 < y → 0 < x / y)%Q.
Proof.
  intros Hx Hy. apply Qlt_shift_div_l; [done|]. by rewrite Qmult_0_l.
Qed.

Lemma inject_Z_pos (z : Z) : 0 < z → (0 < inject_Z z)%Q.
Proof. intros Hz. unfold Qlt. simpl. lia. Qed.

Lemma Qpos_nonzero (x : Q) : (0 < x)%Q → ¬ (x == 0)%Q.
Proof. intros Hx Heq. rewrite Heq in Hx. by apply Qlt_irrefl in Hx. Qed.

Lemma traverse_length {A B : Type} (f : A → result B) (xs : list A) :
  Forall (fun x => ∃ y, f x = Ok y) xs →
  ∃ ys, traverse f xs = Ok ys ∧ length ys = length xs.
Proof.
  induction 1 as [|x xs [y Hy] _ (ys & IH & Hlen)]; simpl.
  - by exists [].
  - exists (y :: ys). rewrite Hy, IH. simpl. by rewrite Hlen.
Qed.

Lemma traverse_lookup {A B : Type} (f : A → result B) (xs : list A)
    (ys : list B) (k : nat) (x : A) :
  traverse f xs = Ok ys → xs !! k = Some x →
  ∃ y, ys !! k = Some y ∧ f x = Ok y.
Proof.
  revert ys k. induction xs as [|x0 xs IH]; intros ys k Htr Hk; [done|].
  simpl in Htr. destruct (f x0) as [y0|e] eqn:Hf0; [|done]. simpl in Htr.
  destruct (traverse f xs) as [ys0|e] eqn:Htr0; [|done]. simpl in Htr.
  injection Htr as <-. destruct k as [|k].
  - injection Hk as <-. by exists y0.
  - simpl in Hk. by apply (IH ys0 k).
Qed.

Lemma count_ge_le (perm_stats : list float64) (stat : float64) :
  (count_ge perm_stats stat ≤ length perm_stats)%nat.
Proof. apply length_filter. Qed.

Lemma p_value_of_bounds (count : nat) (P : Z) :
  0 < P → (Z.of_nat count ≤ P) →
  (1 / inject_Z (P + 1) <= p_value_of count P)%Q
  ∧ (p_value_of count P <= 1)%Q
  ∧ ¬ (p_value_of count P == 0)%Q.
Proof.
  intros HP Hc. unfold p_value_of.
  assert (0 < inject_Z (P + 1))%Q as Hden by (apply inject_Z_pos; lia).
  assert (1 <= inject_Z (Z.of_nat count + 1))%Q as Hnum
    by (unfold Qle; simpl; lia).
  split; [|split].
  - apply Qle_shift_div_l; [done|].
    assert (1 / inject_Z (P + 1) * inject_Z (P + 1) == 1)%Q as ->
      by (field; by apply Qpos_nonzero).
    done.
  - apply Qle_shift_div_r; [done|]. rewrite Qmult_1_l.
    unfold Qle; simpl; lia.
  - apply Qpos_nonzero, Qdiv_pos; [|done].
    eapply Qlt_le_trans; [|exact Hnum]. reflexivity.
Qed.

(** ** Preprocessing *)

Lemma encode_lookup {label : Type} `{EqDecision label} (groups : list label)
    (i : nat) (x : label) :
  NoDup groups → groups !! i = Some x → encode groups x = Z.of_nat i.
Proof.
  intros Hnd Hi. unfold encode.
  assert (list_find (fun y => y = x) groups = Some (i, x)) as ->; [|done].
  apply list_find_Some. split; [done|]. split; [done|].
  intros j y Hj Hlt ->. pose proof (NoDup_lookup _ _ _ _ Hnd Hj Hi). lia.
Qed.

Lemma encode_range {label : Type} `{EqDecision label} (groups : list label)
    (x : label) :
  x ∈ groups → 0 ≤ encode groups x < Z.of_nat (length groups).
Proof.
  intros Hin.
  destruct (list_find_elem_of (fun y => y = x) groups x Hin eq_refl)
    as [[i y] Hf].
  unfold encode. rewrite Hf. apply list_find_Some in Hf as (Hl & _).
  apply lookup_lt_Some in Hl. lia.
Qed.

Lemma foldr_max_ge (x : Z) (l : list Z) : x ∈ l → x ≤ foldr Z.max 0 l.
Proof.
  induction l as [|y l IH]; intros Hin; [by apply elem_of_nil in Hin|].
  simpl. apply elem_of_cons in Hin as [->|Hin]; [lia|].
  specialize (IH Hin). lia.
Qed.

Lemma two_labels_groups {label : Type} `{EqDecision label} (labels : list label) :
  (∃ x y, x ∈ labels ∧ y ∈ labels ∧ x ≠ y) →
  (2 ≤ length (remove_dups labels))%nat.
Proof.
  intros (x & y & Hx & Hy & Hne).
  apply elem_of_remove_dups in Hx, Hy.
  destruct (remove_dups labels) as [|u [|v l]]; simpl; try lia.
  - by apply elem_of_nil in Hx.
  - apply list_elem_of_singleton in Hx, Hy. congruence.
Qed.

(** On a valid input every step of [permanova] before the permutation test
    succeeds, and the statistic can be evaluated at every grouping of the
    right length. *)
Lemma valid_input_pipeline {label : Type} `{EqDecision label}
    (distance_matrix : DistanceMatrix) (labels : list label) :
  valid_input distance_matrix labels →
  ∃ a grouping group_sizes,
    _preprocess_input distance_matrix labels
    = Ok ((shape distance_matrix).1, a, grouping,
          triu_indices (shape distance_matrix).1,
          condensed_form distance_matrix)
    ∧ (2 ≤ a)%nat
    ∧ length grouping = (shape distance_matrix).1
    ∧ np_bincount grouping = Ok group_sizes
    ∧ ∀ s_T g, length g = (shape distance_matrix).1 →
        ∃ stat,
          _compute_f_stat (shape distance_matrix).1 a
            (triu_indices (shape distance_matrix).1)
            (condensed_form distance_matrix) group_sizes s_T g = Ok stat.
Proof.
  intros (Hlen & Hd & Htwo).
  pose proof (two_labels_groups labels Htwo) as Ha.
  set (N := (shape distance_matrix).1) in *.
  set (groups := remove_dups labels) in *.
  set (codes := map (encode groups) labels).
  assert (Forall (fun c => 0 ≤ c < Z.of_nat (length groups)) codes) as Hcodes.
  { apply Forall_forall. intros c Hc.
    apply list_elem_of_In, in_map_iff in Hc as (x & <- & Hx).
    apply encode_range, elem_of_remove_dups. by apply list_elem_of_In. }
  assert (Z.of_nat (length groups) - 1 ≤ foldr Z.max 0 codes) as Hmax.
  { destruct (lookup_lt_is_Some_2 groups (length groups - 1)) as [x Hx]; [lia|].
    apply foldr_max_ge.
    rewrite <- (Nat2Z.inj_sub _ 1), <- (encode_lookup groups _ x) by
      (lia || done || apply NoDup_remove_dups).
    apply list_elem_of_In, in_map, list_elem_of_In, elem_of_remove_dups.
    by eapply list_elem_of_lookup_2. }
  exists (length groups), codes.
  eexists (map (group_count codes) (seq 0 _)).
  split; [|split; [done|split; [by unfold codes; rewrite length_map|split]]].
  - unfold _preprocess_input. fold N. rewrite decide_True by done.
    fold groups. by rewrite decide_False by lia.
  - unfold np_bincount. rewrite decide_True; [reflexivity|].
    eapply Forall_impl; [exact Hcodes|]. simpl. lia.
  - intros s_T g Hg. eexists. apply compute_f_stat_spec.
    + lia.
    + unfold triu_indices. simpl. by rewrite !length_map.
    + unfold triu_indices. simpl. rewrite zip_fst_snd.
      apply Forall_forall. intros [i j] Hin.
      apply elem_of_triu_pairs in Hin. simpl. lia.
    + unfold triu_indices. simpl. by rewrite length_map.
    + rewrite length_map, length_seq.
      destruct codes; [simpl in Hmax; lia|]. lia.
    + lia.
Qed.

(** One label, however often repeated, is one group at most. *)
Lemma single_label_groups {label : Type} `{EqDecision label} (labels : list label) :
  (∀ x y, x ∈ labels → y ∈ labels → x = y) →
  (length (remove_dups labels) < 2)%nat.
Proof.
  intros Hsame. pose proof (NoDup_remove_dups labels) as Hnd.
  destruct (remove_dups labels) as [|x [|y l]] eqn:Heq; simpl; try lia.
  exfalso. apply NoDup_cons in Hnd as [Hx _]. apply Hx.
  assert (x = y) as ->; [|apply list_elem_of_here].
  apply Hsame; apply elem_of_remove_dups; rewrite Heq.
  - apply list_elem_of_here.
  - apply list_elem_of_further, list_elem_of_here.
Qed.

Section EngineProperties.
Variable rng : nat → list Z → list Z.

(** The procedure of section 4.3 on a statistic that can be evaluated at
    the grouping and at each of its shuffles. *)
Lemma run_stat_method_p_value (test_stat_function : list Z → result float64)
    (grouping : list Z) (P : Z) (stat : float64) :
  0 < P →
  test_stat_function grouping = Ok stat →
  (∀ k, (k < Z.to_nat P)%nat →
        ∃ s, test_stat_function (rng k grouping) = Ok s) →
  ∃ perm_stats p,
    length perm_stats = Z.to_nat P
    ∧ (∀ k, (k < Z.to_nat P)%nat →
            ∃ s, perm_stats !! k = Some s
                 ∧ test_stat_function (rng k grouping) = Ok s)
    ∧ _run_stat_method rng test_stat_function grouping P = Ok (stat, Fin p)
    ∧ p = (inject_Z
             (Z.of_nat
                (length (filter (fun s => (stat <=? s)%float = true)
                           perm_stats)) + 1)
           / inject_Z (P + 1))%Q
    ∧ (1 / inject_Z (P + 1) <= p)%Q ∧ (p <= 1)%Q ∧ ¬ (p == 0)%Q.
Proof.
  intros HP Hstat Hperm.
  destruct (traverse_length
              (fun k => test_stat_function (rng k grouping))
              (seq 0 (Z.to_nat P))) as (perm_stats & Htr & Hlen).
  { apply Forall_forall. intros k Hk. apply Hperm.
    apply list_elem_of_In, in_seq in Hk. lia. }
  rewrite length_seq in Hlen.
  exists perm_stats, (p_value_of (count_ge perm_stats stat) P).
  split; [done|]. split.
  { intros k Hk.
    apply (traverse_lookup _ _ _ k k Htr). by apply lookup_seq_lt. }
  split.
  { unfold _run_stat_method. rewrite decide_False by lia.
    rewrite Hstat. cbn [mbind result_bind].
    rewrite decide_False by lia. unfold permuted_stats.
    by rewrite Htr. }
  split; [done|]. apply p_value_of_bounds; [done|].
  pose proof (count_ge_le perm_stats stat). lia.
Qed.

(** C2.  With P > 0 permutations the procedure evaluates the statistic at
    the P shuffled groupings, counts the permuted statistics s with
    s >= observed (ties count, a nan never does) and reports
    p = (count + 1) / (P + 1), which lies in [1/(P+1), 1] and is never 0:
    for every statistic function that can be evaluated at the grouping and
    its shuffles, and for [permanova] on every valid input when the
    shuffles are reorderings of the grouping, where the statistic is
    [_compute_f_stat] with the s_T computed from the distances. *)
Theorem p_value_formula_and_bounds {label : Type} `{EqDecision label}
    (distance_matrix : DistanceMatrix) (labels : list label) (P : Z) :
  0 < P →
  valid_input distance_matrix labels →
  (∀ k g, rng k g ≡ₚ g) →
  (∀ test_stat_function grouping stat,
     test_stat_function grouping = Ok stat →
     (∀ k, (k < Z.to_nat P)%nat →
           ∃ s, test_stat_function (rng k grouping) = Ok s) →
     ∃ perm_stats p,
       length perm_stats = Z.to_nat P
       ∧ (∀ k, (k < Z.to_nat P)%nat →
               ∃ s, perm_stats !! k = Some s
                    ∧ test_stat_function (rng k grouping) = Ok s)
       ∧ _run_stat_method rng test_stat_function grouping P
         = Ok (stat, Fin p)
       ∧ p = (inject_Z
                (Z.of_nat
                   (length (filter (fun s => (stat <=? s)%float = true)
                              perm_stats)) + 1)
              / inject_Z (P + 1))%Q
       ∧ (1 / inject_Z (P + 1) <= p)%Q ∧ (p <= 1)%Q ∧ ¬ (p == 0)%Q)
  ∧ ∃ N a grouping tri_idxs distances group_sizes r perm_stats p,
      _preprocess_input distance_matrix labels
      = Ok (N, a, grouping, tri_idxs, distances)
      ∧ np_bincount grouping = Ok group_sizes
      ∧ permanova rng distance_matrix labels P = Ok r
      ∧ _compute_f_stat N a tri_idxs distances group_sizes
          (sum_sq distances / of_int (Z.of_nat N))%float grouping
        = Ok (test_statistic r)
      ∧ length perm_stats = Z.to_nat P
      ∧ (∀ k, (k < Z.to_nat P)%nat →
              ∃ s, perm_stats !! k = Some s
                   ∧ _compute_f_stat N a tri_idxs distances group_sizes
                       (sum_sq distances / of_int (Z.of_nat N))%float
                       (rng k grouping) = Ok s)
      ∧ p_value r = Fin p
      ∧ p = (inject_Z
               (Z.of_nat
                  (length (filter
                             (fun s => (test_statistic r <=? s)%float = true)
                             perm_stats)) + 1)
             / inject_Z (P + 1))%Q
      ∧ (1 / inject_Z (P + 1) <= p)%Q ∧ (p <= 1)%Q ∧ ¬ (p == 0)%Q.
Proof.
  intros HP Hvalid Hrng.
  split; [intros f g stat; by apply run_stat_method_p_value|].
  destruct (valid_input_pipeline _ _ Hvalid)
    as (a & grouping & group_sizes & Hpre & _ & Hlen & Hsizes & Hstat).
  set (s_T := (sum_sq (condensed_form distance_matrix)
               / of_int (Z.of_nat (shape distance_matrix).1))%float).
  destruct (Hstat s_T grouping Hlen) as [stat Hs].
  destruct (run_stat_method_p_value _ grouping P stat HP Hs)
    as (perm_stats & p & Hl & Htie & Hrun & Hp & Hbounds).
  { intros k _. apply Hstat.
    by rewrite (Permutation_length (Hrng k grouping)). }
  eexists _, a, grouping, _, _, group_sizes, _, perm_stats, p.
  split; [exact Hpre|]. split; [exact Hsizes|]. split.
  { unfold permanova. rewrite Hpre. cbn [mbind result_bind].
    rewrite Hsizes. cbn [mbind result_bind]. fold s_T. rewrite Hrun.
    reflexivity. }
  simpl. split; [exact Hs|]. split; [exact Hl|]. split; [exact Htie|].
  split; [done|]. split; [exact Hp|]. exact Hbounds.
Qed.

(** C4.  On a valid input with zero permutations the procedure runs no
    trial, reports NaN as the p-value, which is a result and not an
    exception, and reports as the statistic the value of the statistic
    function at the grouping as preprocessing produced it. *)
Theorem zero_permutations_sentinel {label : Type} `{EqDecision label}
    (distance_matrix : DistanceMatrix) (labels : list label) :
  valid_input distance_matrix labels →
  (∀ test_stat_function g s,
     test_stat_function g = Ok s →
     _run_stat_method rng test_stat_function g 0 = Ok (s, NaN))
  ∧ ∃ N a grouping tri_idxs distances group_sizes stat,
      _preprocess_input distance_matrix labels
      = Ok (N, a, grouping, tri_idxs, distances)
      ∧ np_bincount grouping = Ok group_sizes
      ∧ _compute_f_stat N a tri_idxs distances group_sizes
          (sum_sq distances / of_int (Z.of_nat N))%float grouping
        = Ok stat
      ∧ permuted_stats rng
          (_compute_f_stat N a tri_idxs distances group_sizes
             (sum_sq distances / of_int (Z.of_nat N))%float)
          grouping 0 = Ok []
      ∧ permanova rng distance_matrix labels 0
        = Ok (_build_results "PERMANOVA" "pseudo-F" N a stat NaN 0).
Proof.
  intros Hvalid.
  assert (∀ test_stat_function g s,
            test_stat_function g = Ok s →
            _run_stat_method rng test_stat_function g 0 = Ok (s, NaN)) as Hrun.
  { intros f g s Hf. unfold _run_stat_method.
    rewrite decide_False by lia. rewrite Hf. cbn [mbind result_bind].
    by rewrite decide_True. }
  split; [done|].
  destruct (valid_input_pipeline _ _ Hvalid)
    as (a & grouping & group_sizes & Hpre & _ & Hlen & Hsizes & Hstat).
  destruct (Hstat (sum_sq (condensed_form distance_matrix)
                   / of_int (Z.of_nat (shape distance_matrix).1))%float
              grouping Hlen) as [stat Hs].
  eexists _, a, grouping, _, _, group_sizes, stat.
  split; [exact Hpre|]. split; [exact Hsizes|]. split; [exact Hs|].
  split; [done|].
  unfold permanova. rewrite Hpre. cbn [mbind result_bind].
  rewrite Hsizes. cbn [mbind result_bind].
  by rewrite (Hrun _ _ _ Hs).
Qed.

(** C8.  A negative permutation count makes the procedure raise the
    invalid-parameter error, whatever the statistic function and the
    grouping, and so does [permanova] on a valid input: no p-value is
    computed. *)
Theorem negative_permutations_rejected {label : Type} `{EqDecision label}
    (distance_matrix : DistanceMatrix) (labels : list label)
    (permutations : Z) :
  permutations < 0 →
  valid_input distance_matrix labels →
  (∀ test_stat_function g,
     _run_stat_method rng test_stat_function g permutations
     = Raise (ValueError NegativePermutations))
  ∧ permanova rng distance_matrix labels permutations
    = Raise (ValueError NegativePermutations).
Proof.
  intros Hneg Hvalid.
  assert (∀ test_stat_function g,
            _run_stat_method rng test_stat_function g permutations
            = Raise (ValueError NegativePermutations)) as Hrun.
  { intros f g. unfold _run_stat_method. by rewrite decide_True. }
  split; [done|].
  destruct (valid_input_pipeline _ _ Hvalid)
    as (a & grouping & group_sizes & Hpre & _ & _ & Hsizes & _).
  unfold permanova. rewrite Hpre. cbn [mbind result_bind].
  rewrite Hsizes. cbn [mbind result_bind]. by rewrite Hrun.
Qed.

(** C5.  A grouping of the right length in which all labels are the same
    makes preprocessing raise the insufficient-groups ValueError, and
    [permanova] raises it whatever the permutation count and the source
    of randomness: no group size, no sum of squares and no statistic is
    computed. *)
Theorem single_group_rejected {label : Type} `{EqDecision label}
    (distance_matrix : DistanceMatrix) (labels : list label)
    (permutations : Z) :
  length labels = (shape distance_matrix).1 →
  (∀ x y, x ∈ labels → y ∈ labels → x = y) →
  _preprocess_input distance_matrix labels
  = Raise (ValueError InsufficientGroups)
  ∧ permanova rng distance_matrix labels permutations
    = Raise (ValueError InsufficientGroups).
Proof.
  intros Hlen Hsame.
  assert (_preprocess_input distance_matrix labels
          = Raise (ValueError InsufficientGroups)) as Hpre.
  { unfold _preprocess_input. rewrite decide_True by done.
    rewrite decide_True; [done|]. by apply single_label_groups. }
  split; [done|]. unfold permanova. by rewrite Hpre.
Qed.
End EngineProperties.

Lemma rotating_Permutation (k : nat) (g : list Z) : rotating k g ≡ₚ g.
Proof.
  unfold rotating, rotate. rewrite Permutation_app_comm.
  by rewrite take_drop.
Qed.

Lemma p_value_formula_and_bounds_witness :
  (∀ test_stat_function grouping stat,
     test_stat_function grouping = Ok stat →
     (∀ k, (k < Z.to_nat 3)%nat →
           ∃ s, test_stat_function (rotating k grouping) = Ok s) →
     ∃ perm_stats p,
       length perm_stats = Z.to_nat 3
       ∧ (∀ k, (k < Z.to_nat 3)%nat →
               ∃ s, perm_stats !! k = Some s
                    ∧ test_stat_function (rotating k grouping) = Ok s)
       ∧ _run_stat_method rotating test_stat_function grouping 3
         = Ok (stat, Fin p)
       ∧ p = (inject_Z
                (Z.of_nat
                   (length (filter (fun s => (stat <=? s)%float = true)
                              perm_stats)) + 1)
              / inject_Z (3 + 1))%Q
       ∧ (1 / inject_Z (3 + 1) <= p)%Q ∧ (p <= 1)%Q ∧ ¬ (p == 0)%Q)
  ∧ ∃ N a grouping tri_idxs distances group_sizes r perm_stats p,
      _preprocess_input two_tight_groups two_tight_labels
      = Ok (N, a, grouping, tri_idxs, distances)
      ∧ np_bincount grouping = Ok group_sizes
      ∧ permanova rotating two_tight_groups two_tight_labels 3 = Ok r
      ∧ _compute_f_stat N a tri_idxs distances group_sizes
          (sum_sq distances / of_int (Z.of_nat N))%float grouping
        = Ok (test_statistic r)
      ∧ length perm_stats = Z.to_nat 3
      ∧ (∀ k, (k < Z.to_nat 3)%nat →
              ∃ s, perm_stats !! k = Some s
                   ∧ _compute_f_stat N a tri_idxs distances group_sizes
                       (sum_sq distances / of_int (Z.of_nat N))%float
                       (rotating k grouping) = Ok s)
      ∧ p_value r = Fin p
      ∧ p = (inject_Z
               (Z.of_nat
                  (length (filter
                             (fun s => (test_statistic r <=? s)%float = true)
                             perm_stats)) + 1)
             / inject_Z (3 + 1))%Q
      ∧ (1 / inject_Z (3 + 1) <= p)%Q ∧ (p <= 1)%Q ∧ ¬ (p == 0)%Q.
Proof.
  apply (p_value_formula_and_bounds rotating two_tight_groups
           two_tight_labels 3).
  - lia.
  - split; [reflexivity|]. split; [reflexivity|].
    exists "A"%string, "B"%string.
    split; [apply list_elem_of_here|]. split; [|done].
    do 2 apply list_elem_of_further. apply list_elem_of_here.
  - apply rotating_Permutation.
Defined.

Lemma zero_permutations_sentinel_witness :
  (∀ test_stat_function g s,
     test_stat_function g = Ok s →
     _run_stat_method rotating test_stat_function g 0 = Ok (s, NaN))
  ∧ ∃ N a grouping tri_idxs distances group_sizes stat,
      _preprocess_input two_tight_groups two_tight_labels
      = Ok (N, a, grouping, tri_idxs, distances)
      ∧ np_bincount grouping = Ok group_sizes
      ∧ _compute_f_stat N a tri_idxs distances group_sizes
          (sum_sq distances / of_int (Z.of_nat N))%float grouping
        = Ok stat
      ∧ permuted_stats rotating
          (_compute_f_stat N a tri_idxs distances group_sizes
             (sum_sq distances / of_int (Z.of_nat N))%float)
          grouping 0 = Ok []
      ∧ permanova rotating two_tight_groups two_tight_labels 0
        = Ok (_build_results "PERMANOVA" "pseudo-F" N a stat NaN 0).
Proof.
  apply (zero_permutations_sentinel rotating two_tight_groups two_tight_labels).
  split; [reflexivity|]. split; [reflexivity|].
  exists "A"%string, "B"%string.
  split; [apply list_elem_of_here|]. split; [|done].
  do 2 apply list_elem_of_further. apply list_elem_of_here.
Defined.

Lemma negative_permutations_rejected_witness :
  (∀ test_stat_function g,
     _run_stat_method rotating test_stat_function g (-1)
     = Raise (ValueError NegativePermutations))
  ∧ permanova rotating two_tight_groups two_tight_labels (-1)
    = Raise (ValueError NegativePermutations).
Proof.
  apply (negative_permutations_rejected rotating two_tight_groups
           two_tight_labels (-1)).
  - lia.
  - split; [reflexivity|]. split; [reflexivity|].
    exists "A"%string, "B"%string.
    split; [apply list_elem_of_here|]. split; [|done].
    do 2 apply list_elem_of_further. apply list_elem_of_here.
Defined.

Lemma single_group_rejected_witness :
  _preprocess_input two_tight_groups ["A"; "A"; "A"; "A"]%string
  = Raise (ValueError InsufficientGroups)
  ∧ permanova rotating two_tight_groups ["A"; "A"; "A"; "A"]%string 999
    = Raise (ValueError InsufficientGroups).
Proof.
  apply (single_group_rejected rotating two_tight_groups
           ["A"; "A"; "A"; "A"]%string 999).
  - reflexivity.
  - intros x y Hx Hy.
    repeat (apply elem_of_cons in Hx as [->|Hx]);
      repeat (apply elem_of_cons in Hy as [->|Hy]);
      try done; try (by apply elem_of_nil in Hx); by apply elem_of_nil in Hy.
Defined.

(** The scenario of section 8 with three rotations: the second rotation
    swaps the two groups, its statistic ties with the observed one and is
    counted; the other two separate nothing. *)
Example permanova_two_tight_groups :
  permuted_stats rotating
    (_compute_f_stat 4 2 (triu_indices 4) [1; 10; 10; 10; 10; 1]%float [2; 2]
       100.5%float) [0; 0; 1; 1] 3
  = Ok [1 / 100; 199; 1 / 100]%float
  ∧ ∃ r, permanova rotating two_tight_groups two_tight_labels 3 = Ok r
         ∧ test_statistic r = 199%float
         ∧ p_value r = Fin (inject_Z 2 / inject_Z 4)
         ∧ res_sample_size r = 4%nat ∧ number_of_groups r = 2%nat.
Proof.
  split; [vm_compute; reflexivity|].
  eexists. split; [vm_compute; reflexivity|]. by vm_compute.
Qed.
(** * Further properties of the code *)

(** ** [_index_combinations] *)

Lemma lookup_np_tile {A : Type} (l : list A) (m q r : nat) :
  (q < m)%nat → (r < length l)%nat →
  np_tile l m !! (q * length l + r)%nat = l !! r.
Proof.
  unfold np_tile. revert q. induction m as [|m IH]; intros q Hq Hr; [lia|].
  simpl. destruct q as [|q]; simpl.
  - by rewrite lookup_app_l.
  - rewrite lookup_app_r by lia.
    replace (length l + q * length l + r - length l)%nat
      with (q * length l + r)%nat by lia.
    apply IH; lia.
Qed.

Lemma lookup_np_repeat {A : Type} (l : list A) (n q r : nat) :
  (r < n)%nat → np_repeat l n !! (q * n + r)%nat = l !! q.
Proof.
  unfold np_repeat. intros Hr. revert q.
  induction l as [|y l IH]; intros q; simpl.
  - by rewrite !lookup_nil.
  - destruct q as [|q]; simpl.
    + rewrite lookup_app_l by (rewrite length_replicate; lia).
      by apply lookup_replicate_2.
    + rewrite lookup_app_r by (rewrite length_replicate; lia).
      rewrite length_replicate.
      replace (n + q * n + r - n)%nat with (q * n + r)%nat by lia.
      apply IH.
Qed.

(** The two arrays returned for [n] indices have [n * n] entries each
    (none for no index); position [q * n + r] pairs the [r]-th index, in
    the first array, with the [q]-th, in the second; so the positions
    paired are exactly the pairs of indices, in both orders and with
    themselves. *)
Theorem index_combinations_square (indices : list nat) :
  length (_index_combinations indices).1
  = (length indices * length indices)%nat
  ∧ length (_index_combinations indices).2
    = (length indices * length indices)%nat
  ∧ (∀ q r, (q < length indices)%nat → (r < length indices)%nat →
       (_index_combinations indices).1 !! (q * length indices + r)%nat
       = indices !! r
       ∧ (_index_combinations indices).2 !! (q * length indices + r)%nat
         = indices !! q)
  ∧ ∀ r c, (r, c) ∈ zip (_index_combinations indices).1
                        (_index_combinations indices).2
           ↔ r ∈ indices ∧ c ∈ indices.
Proof.
  unfold _index_combinations; simpl.
  split; [apply length_np_tile|]. split; [apply length_np_repeat|]. split.
  - intros q r Hq Hr. split; [by apply lookup_np_tile|].
    by apply lookup_np_repeat.
  - intros r c. rewrite zip_tile_repeat. apply elem_of_square.
Qed.

(** ** What [_compute_f_stat] raises *)

Lemma for_each_raises {A S : Type} (P : exn → Prop) (body : S → A → result S)
    (xs : list A) (s : S) (e : exn) :
  (∀ s x e, body s x = Raise e → P e) →
  for_each body xs s = Raise e → P e.
Proof.
  intros Hbody. revert s. induction xs as [|x xs IH]; intros s; simpl; [done|].
  destruct (body s x) as [s'|e'] eqn:Hb; simpl.
  - apply IH.
  - intros [= <-]. by eapply Hbody.
Qed.

Lemma traverse_raises {A B : Type} (P : exn → Prop) (f : A → result B)
    (xs : list A) (e : exn) :
  (∀ x e, f x = Raise e → P e) →
  traverse f xs = Raise e → P e.
Proof.
  intros Hf. induction xs as [|x xs IH]; simpl; [done|].
  destruct (f x) as [y|e'] eqn:Hx; simpl.
  - destruct (traverse f xs) as [ys|e'']; simpl; [done|].
    intros [= <-]. by apply IH.
  - intros [= <-]. by eapply Hf.
Qed.

Lemma broadcast2_raises (I J : list nat) (e : exn) :
  broadcast2 I J = Raise e → e = IndexError.
Proof.
  unfold broadcast2. case_decide; [done|].
  destruct I as [|i [|i' I]], J as [|j [|j' J]]; try done; by intros [= <-].
Qed.

Lemma set_cell_raises (v : Z) (M : matrix) (rc : nat * nat) (e : exn) :
  set_cell v M rc = Raise e → e = IndexError.
Proof.
  unfold set_cell. destruct (M !! rc.1); [case_decide|]; try done;
    by intros [= <-].
Qed.

Lemma get_cell_raises (M : matrix) (rc : nat * nat) (e : exn) :
  get_cell M rc = Raise e → e = IndexError.
Proof.
  unfold get_cell. destruct (M !! rc.1) as [row|]; [destruct (row !! rc.2)|];
    try done; by intros [= <-].
Qed.

Lemma setitem_raises (M : matrix) (idx : list nat * list nat) (v : Z) (e : exn) :
  setitem M idx v = Raise e → e = IndexError.
Proof.
  unfold setitem. destruct (broadcast2 idx.1 idx.2) as [ps|e'] eqn:Hb; simpl.
  - apply (for_each_raises (fun e => e = IndexError)).
    intros s x e'. apply set_cell_raises.
  - intros [= <-]. by eapply broadcast2_raises.
Qed.

Lemma getitem_raises (M : matrix) (idx : list nat * list nat) (e : exn) :
  getitem M idx = Raise e → e = IndexError.
Proof.
  unfold getitem. destruct (broadcast2 idx.1 idx.2) as [ps|e'] eqn:Hb; simpl.
  - apply (traverse_raises (fun e => e = IndexError)).
    intros x e'. apply get_cell_raises.
  - intros [= <-]. by eapply broadcast2_raises.
Qed.

Lemma grouping_matrix_raises (shape : nat * nat) (a : nat) (grouping : list Z)
    (e : exn) :
  grouping_matrix_of shape a grouping = Raise e → e = IndexError.
Proof.
  unfold grouping_matrix_of.
  apply (for_each_raises (fun e => e = IndexError)).
  intros M g e'. apply setitem_raises.
Qed.

Lemma within_group_ss_raises (a : nat) (distances : list float64)
    (group_sizes grouping_tri : list Z) (e : exn) :
  within_group_ss a distances group_sizes grouping_tri = Raise e →
  e = IndexError.
Proof.
  unfold within_group_ss. apply (for_each_raises (fun e => e = IndexError)).
  intros s i e'. unfold mask_select, index_at.
  case_decide; simpl; [|by intros [= <-]].
  destruct (group_sizes !! i); simpl; [done | by intros [= <-]].
Qed.

(** For sizes that are not negative and an [np.float64] [s_T], which is
    what [permanova] passes, and whatever the arrays, the procedure raises
    nothing but IndexError, except for the ZeroDivisionError of Python's own
    division, which needs no group and no object at all. *)
Theorem f_stat_raises_only (N a : nat) (tri_idxs : list nat * list nat)
    (distances : list float64) (group_sizes : list Z) (s_T : float64)
    (grouping : list Z) (e : exn) :
  _compute_f_stat N a tri_idxs distances group_sizes s_T grouping = Raise e →
  e = IndexError ∨ (e = ZeroDivisionError ∧ a = 0%nat ∧ N = 0%nat).
Proof.
  unfold _compute_f_stat.
  destruct (grouping_matrix_of (N, N) a grouping) as [M|e1] eqn:HM; simpl;
    [|intros [= <-]; left; by eapply grouping_matrix_raises].
  destruct (getitem M tri_idxs) as [gt|e2] eqn:Hgt; simpl;
    [|intros [= <-]; left; by eapply getitem_raises].
  destruct (within_group_ss a distances group_sizes gt) as [s_W|e3] eqn:HW;
    simpl; [|intros [= <-]; left; by eapply within_group_ss_raises].
  unfold f_ratio. case_decide as Hz; [|done].
  intros [= <-]. right. by destruct Hz.
Qed.

Lemma f_stat_raises_only_witness :
  IndexError = IndexError
  ∨ (IndexError = ZeroDivisionError ∧ 2%nat = 0%nat ∧ 3%nat = 0%nat).
Proof.
  apply (f_stat_raises_only 3 2 (triu_indices 3) [10; 1]%float [2; 1] 34%float
           [0; 0; 1] IndexError).
  reflexivity.
Defined.

(** With no group and no object the value is never computed: Python's
    division of the integer 0 by 0 raises. *)
Lemma f_stat_zero_division (tri_idxs : list nat * list nat)
    (distances : list float64) (group_sizes : list Z) (s_T : float64)
    (grouping : list Z) :
  tri_idxs.1 = [] → tri_idxs.2 = [] →
  _compute_f_stat 0 0 tri_idxs distances group_sizes s_T grouping
  = Raise ZeroDivisionError.
Proof.
  intros H1 H2. unfold _compute_f_stat, grouping_matrix_of, getitem. simpl.
  by rewrite H1, H2.
Qed.

Lemma set_cell_dims (v : Z) (M M' : matrix) (nr nc : nat) (rc : nat * nat) :
  dims M nr nc → set_cell v M rc = Ok M' → dims M' nr nc.
Proof.
  intros [Hlen Hrows]. unfold set_cell.
  destruct (M !! rc.1) as [row|] eqn:Hrow; [|done].
  case_decide; [|done]. intros [= <-]. split; [by rewrite length_insert|].
  apply Forall_insert; [done|]. rewrite length_insert.
  by apply (proj1 (Forall_lookup _ _) Hrows rc.1).
Qed.

Lemma for_each_set_cell_dims (v : Z) (ps : list (nat * nat)) (M M' : matrix)
    (nr nc : nat) :
  dims M nr nc → for_each (set_cell v) ps M = Ok M' → dims M' nr nc.
Proof.
  revert M. induction ps as [|rc ps IH]; intros M HM; simpl.
  - by intros [= <-].
  - destruct (set_cell v M rc) as [M1|e] eqn:H1; simpl; [|done].
    apply IH. by eapply set_cell_dims.
Qed.

Lemma grouping_matrix_dims (N a : nat) (grouping : list Z) (M : matrix) :
  grouping_matrix_of (N, N) a grouping = Ok M → dims M N N.
Proof.
  unfold grouping_matrix_of. revert M. induction a as [|a IH]; intros M.
  - intros [= <-]. apply dims_minus_ones.
  - rewrite seq_S, for_each_app.
    destruct (for_each _ (seq 0 a) (minus_ones (N, N))) as [M0|e]; [|done].
    simpl. unfold setitem. rewrite broadcast_index_combinations. simpl.
    destruct (for_each _ _ M0) as [M1|e] eqn:H1; [|done].
    intros [= <-]. eapply for_each_set_cell_dims; [|exact H1]. by apply IH.
Qed.

(** One position outside the matrix among those assigned is an
    IndexError. *)
Lemma for_each_set_cell_outside (v : Z) (ps : list (nat * nat)) (M : matrix)
    (nr nc : nat) (rc : nat * nat) :
  dims M nr nc → rc ∈ ps → (nr ≤ rc.1)%nat →
  for_each (set_cell v) ps M = Raise IndexError.
Proof.
  intros HM Hin Hout. revert M HM.
  induction ps as [|p ps IH]; intros M HM; [by apply elem_of_nil in Hin|].
  simpl. destruct (set_cell v M p) as [M1|e] eqn:H1; simpl.
  - apply elem_of_cons in Hin as [<-|Hin].
    + unfold set_cell in H1. destruct HM as [Hlen _].
      rewrite lookup_ge_None_2 in H1 by lia. done.
    + apply IH; [done|]. by eapply set_cell_dims.
  - by rewrite (set_cell_raises _ _ _ _ H1).
Qed.

(** An object at a position that the matrix does not have, carrying one of
    the codes 0..num_groups-1, makes the procedure raise IndexError: a
    grouping longer than the sample is not truncated. *)
Theorem f_stat_grouping_beyond_sample (N a : nat)
    (tri_idxs : list nat * list nat) (distances : list float64)
    (group_sizes : list Z) (s_T : float64) (grouping : list Z) (i g : nat) :
  grouping !! i = Some (Z.of_nat g) → (g < a)%nat → (N ≤ i)%nat →
  _compute_f_stat N a tri_idxs distances group_sizes s_T grouping
  = Raise IndexError.
Proof.
  intros Hi Hg HN.
  assert (grouping_matrix_of (N, N) a grouping = Raise IndexError) as HM.
  { induction a as [|a IH]; [lia|].
    destruct (grouping_matrix_of (N, N) a grouping) as [M|e] eqn:Ha.
    - pose proof (grouping_matrix_dims _ _ _ _ Ha) as Hdims.
      assert (g = a) as ->.
      { destruct (decide (g < a)%nat) as [Hlt|]; [|lia]. by specialize (IH Hlt). }
      unfold grouping_matrix_of in *. rewrite seq_S, for_each_app, Ha. simpl.
      unfold setitem. rewrite broadcast_index_combinations. simpl.
      rewrite (for_each_set_cell_outside _ _ M N N (i, i)); [done|done| |done].
      apply elem_of_square. by split; apply elem_of_np_where_eq.
    - pose proof (grouping_matrix_raises _ _ _ _ Ha) as ->.
      unfold grouping_matrix_of in *. by rewrite seq_S, for_each_app, Ha. }
  unfold _compute_f_stat. by rewrite HM.
Qed.

Lemma f_stat_grouping_beyond_sample_witness :
  _compute_f_stat 3 2 (triu_indices 3) [10; 1; 1]%float [2; 2] 34%float
    [0; 0; 1; 1]
  = Raise IndexError.
Proof.
  apply (f_stat_grouping_beyond_sample 3 2 (triu_indices 3) [10; 1; 1]%float
           [2; 2] 34%float [0; 0; 1; 1] 3 1).
  - reflexivity.
  - lia.
  - lia.
Defined.

(** With at least one group, distances that are not one per index pair are
    an IndexError: the boolean mask does not fit. *)
Theorem f_stat_distances_misaligned (N a : nat)
    (tri_idxs : list nat * list nat) (distances : list float64)
    (group_sizes : list Z) (s_T : float64) (grouping : list Z) :
  (1 ≤ a)%nat →
  length tri_idxs.1 = length tri_idxs.2 →
  length distances ≠ length tri_idxs.1 →
  _compute_f_stat N a tri_idxs distances group_sizes s_T grouping
  = Raise IndexError.
Proof.
  intros Ha Hlen Hd. unfold _compute_f_stat.
  destruct (grouping_matrix_of (N, N) a grouping) as [M|e] eqn:HM; simpl;
    [|by rewrite (grouping_matrix_raises _ _ _ _ HM)].
  destruct (getitem M tri_idxs) as [gt|e] eqn:Hgt; simpl;
    [|by rewrite (getitem_raises _ _ _ Hgt)].
  assert (length gt = length tri_idxs.1) as Hgtlen.
  { unfold getitem, broadcast2 in Hgt. rewrite decide_True in Hgt by done.
    simpl in Hgt.
    assert (∀ ps ys, traverse (get_cell M) ps = Ok ys → length ys = length ps)
      as Htr.
    { induction ps as [|p ps IH]; intros ys; simpl; [by intros [= <-]|].
      destruct (get_cell M p); simpl; [|done].
      destruct (traverse (get_cell M) ps) as [ys'|]; simpl; [|done].
      intros [= <-]. simpl. by rewrite (IH ys'). }
    rewrite (Htr _ _ Hgt), length_zip_with. lia. }
  unfold within_group_ss. destruct a as [|a]; [lia|]. simpl.
  unfold mask_select. rewrite decide_False; [done|].
  rewrite length_map. lia.
Qed.

Lemma f_stat_distances_misaligned_witness :
  _compute_f_stat 3 2 (triu_indices 3) [10; 1]%float [2; 1] 34%float [0; 0; 1]
  = Raise IndexError.
Proof.
  apply (f_stat_distances_misaligned 3 2 (triu_indices 3) [10; 1]%float [2; 1]
           34%float [0; 0; 1]).
  - lia.
  - reflexivity.
  - simpl. lia.
Defined.

(** An array of group sizes with fewer entries than there are groups is an
    IndexError, whatever else is passed. *)
Theorem f_stat_group_sizes_short (N a : nat)
    (tri_idxs : list nat * list nat) (distances : list float64)
    (group_sizes : list Z) (s_T : float64) (grouping : list Z) :
  (length group_sizes < a)%nat →
  _compute_f_stat N a tri_idxs distances group_sizes s_T grouping
  = Raise IndexError.
Proof.
  intros Hsz. unfold _compute_f_stat.
  destruct (grouping_matrix_of (N, N) a grouping) as [M|e] eqn:HM; simpl;
    [|by rewrite (grouping_matrix_raises _ _ _ _ HM)].
  destruct (getitem M tri_idxs) as [gt|e] eqn:Hgt; simpl;
    [|by rewrite (getitem_raises _ _ _ Hgt)].
  assert (within_group_ss a distances group_sizes gt = Raise IndexError) as ->;
    [|done].
  unfold within_group_ss.
  replace a with (length group_sizes + S (a - S (length group_sizes)))%nat
    by lia.
  rewrite seq_app, for_each_app.
  match goal with |- context [for_each ?b (seq 0 _) ?s] =>
    destruct (for_each b (seq 0 (length group_sizes)) s) as [s_W|e] eqn:Hpre
  end; simpl.
  - destruct (mask_select distances _) as [sel|e] eqn:Hsel; simpl.
    + unfold index_at. by rewrite lookup_ge_None_2 by lia.
    + unfold mask_select in Hsel. case_decide; [done|]. by injection Hsel as <-.
  - f_equal. revert Hpre. apply (for_each_raises (fun e => e = IndexError)).
    intros s i e'. unfold mask_select, index_at.
    case_decide; simpl; [|by intros [= <-]].
    destruct (group_sizes !! i); simpl; [done | by intros [= <-]].
Qed.

Lemma f_stat_group_sizes_short_witness :
  _compute_f_stat 3 2 (triu_indices 3) [10; 1; 1]%float [3] 34%float [0; 0; 1]
  = Raise IndexError.
Proof.
  apply (f_stat_group_sizes_short 3 2 (triu_indices 3) [10; 1; 1]%float [3]
           34%float [0; 0; 1]).
  simpl. lia.
Defined.

(** ** Group sizes and shuffles *)

Lemma foldr_max_Permutation (xs ys : list Z) :
  xs ≡ₚ ys → foldr Z.max 0 xs = foldr Z.max 0 ys.
Proof.
  induction 1 as [|x xs ys _ IH|x y xs|xs ys zs _ IH1 _ IH2]; simpl;
    [done | by rewrite IH | lia | by rewrite IH1].
Qed.

Lemma group_count_Permutation (xs ys : list Z) (v : nat) :
  xs ≡ₚ ys → group_count xs v = group_count ys v.
Proof. intros H. unfold group_count. by rewrite H. Qed.

Lemma np_bincount_Permutation (xs ys : list Z) :
  xs ≡ₚ ys → np_bincount xs = np_bincount ys.
Proof.
  intros H. unfold np_bincount.
  destruct (decide (Forall (fun x => 0 ≤ x) xs)) as [Hx|Hx];
    destruct (decide (Forall (fun x => 0 ≤ x) ys)) as [Hy|Hy].
  - rewrite (foldr_max_Permutation _ _ H).
    assert (match xs with [] => 0%nat | _ => S (Z.to_nat (foldr Z.max 0 ys)) end
            = match ys with [] => 0%nat | _ => S (Z.to_nat (foldr Z.max 0 ys)) end)
      as ->.
    { destruct xs, ys; try done.
      - by apply Permutation_nil_cons in H.
      - symmetry in H. by apply Permutation_nil_cons in H. }
    f_equal. apply map_ext. intros v. by apply group_count_Permutation.
  - exfalso. apply Hy. by rewrite <- H.
  - exfalso. apply Hx. by rewrite H.
  - done.
Qed.

Lemma occurrences_Permutation (v : Z) (xs ys : list Z) :
  xs ≡ₚ ys → occurrences v xs = occurrences v ys.
Proof. intros H. unfold occurrences. by rewrite H. Qed.

(** The group sizes taken once from the grouping as given (line 98) are
    the group sizes of every reordering of it, and a reordering of a
    canonical grouping is canonical with the same sizes: each permutation
    trial is handed a consistent input. *)
Theorem shuffle_keeps_group_sizes (grouping grouping' : list Z) :
  grouping' ≡ₚ grouping →
  np_bincount grouping' = np_bincount grouping
  ∧ ∀ N a tri_idxs distances group_sizes,
      canonical N a tri_idxs distances group_sizes grouping →
      canonical N a tri_idxs distances group_sizes grouping'.
Proof.
  intros Hperm. split; [by apply np_bincount_Permutation|].
  intros N a tri_idxs distances group_sizes Hc. destruct Hc. split; try done.
  - by rewrite (Permutation_length Hperm).
  - by rewrite Hperm.
  - rewrite can_sizes0. apply map_ext. intros v.
    symmetry. by apply group_count_Permutation.
Qed.

Lemma shuffle_keeps_group_sizes_witness :
  np_bincount (rotating 0 [0; 0; 1]) = np_bincount [0; 0; 1]
  ∧ ∀ N a tri_idxs distances group_sizes,
      canonical N a tri_idxs distances group_sizes [0; 0; 1] →
      canonical N a tri_idxs distances group_sizes (rotating 0 [0; 0; 1]).
Proof.
  apply (shuffle_keeps_group_sizes [0; 0; 1] (rotating 0 [0; 0; 1])).
  apply rotating_Permutation.
Defined.

(** ** What [permanova] hands to [_compute_f_stat] *)

Lemma foldr_max_le (b : Z) (l : list Z) :
  0 ≤ b → Forall (fun x => x ≤ b) l → foldr Z.max 0 l ≤ b.
Proof. intros Hb. induction 1; simpl; lia. Qed.

Lemma sum_Z_app (xs ys : list Z) : sum_Z (xs ++ ys) = sum_Z xs + sum_Z ys.
Proof. unfold sum_Z. induction xs as [|x xs IH]; simpl; lia. Qed.

Lemma sum_Z_indicator (x : Z) (a : nat) :
  sum_Z (map (fun v => if decide (x = Z.of_nat v) then 1 else 0) (seq 0 a))
  = if decide (0 ≤ x < Z.of_nat a) then 1 else 0.
Proof.
  induction a as [|a IH]; [by rewrite decide_False by lia|].
  rewrite seq_S, map_app, sum_Z_app, IH. simpl.
  repeat case_decide; lia.
Qed.

Lemma sum_Z_map_add {A : Type} (f h : A → Z) (l : list A) :
  sum_Z (map (fun v => f v + h v) l) = sum_Z (map f l) + sum_Z (map h l).
Proof. unfold sum_Z. induction l as [|x l IH]; simpl; lia. Qed.

(** Codes in range: the groups partition the objects. *)
Lemma sum_group_counts (a : nat) (grouping : list Z) :
  Forall (fun g => 0 ≤ g < Z.of_nat a) grouping →
  sum_Z (map (group_count grouping) (seq 0 a)) = Z.of_nat (length grouping).
Proof.
  induction 1 as [|x grouping Hx _ IH].
  - unfold group_count. simpl. induction (seq 0 a); simpl; [done|lia].
  - rewrite (map_ext (group_count (x :: grouping))
               (fun v => (if decide (x = Z.of_nat v) then 1 else 0)
                         + group_count grouping v)).
    + rewrite sum_Z_map_add, sum_Z_indicator, IH.
      rewrite decide_True by done. simpl length. lia.
    + intros v. unfold group_count. rewrite filter_cons.
      case_decide; simpl length; lia.
Qed.

(** On a valid input with fewer groups than objects, the values
    [permanova] computes in lines 94-98 and closes the statistic over are a
    canonical input: codes 0..a-1, one group size per code, none of them
    0, adding up to the sample size. *)
Theorem permanova_inputs_canonical {label : Type} `{EqDecision label}
    (distance_matrix : DistanceMatrix) (labels : list label) :
  valid_input distance_matrix labels →
  (length (remove_dups labels) < (shape distance_matrix).1)%nat →
  ∃ a grouping group_sizes,
    _preprocess_input distance_matrix labels
    = Ok ((shape distance_matrix).1, a, grouping,
          triu_indices (shape distance_matrix).1,
          condensed_form distance_matrix)
    ∧ np_bincount grouping = Ok group_sizes
    ∧ canonical (shape distance_matrix).1 a
        (triu_indices (shape distance_matrix).1)
        (condensed_form distance_matrix) group_sizes grouping
    ∧ sum_Z group_sizes = Z.of_nat (shape distance_matrix).1.
Proof.
  intros (Hlen & Hd & Htwo) HaN.
  pose proof (two_labels_groups labels Htwo) as Ha.
  set (N := (shape distance_matrix).1) in *.
  set (groups := remove_dups labels) in *.
  set (codes := map (encode groups) labels).
  assert (Forall (fun c => 0 ≤ c < Z.of_nat (length groups)) codes) as Hcodes.
  { apply Forall_forall. intros c Hc.
    apply list_elem_of_In, in_map_iff in Hc as (x & <- & Hx).
    apply encode_range, elem_of_remove_dups. by apply list_elem_of_In. }
  assert (∀ i, (i < length groups)%nat → Z.of_nat i ∈ codes) as Hocc.
  { intros i Hi.
    destruct (lookup_lt_is_Some_2 groups i Hi) as [x Hx].
    rewrite <- (encode_lookup groups i x) by (done || apply NoDup_remove_dups).
    apply list_elem_of_In, in_map, list_elem_of_In, elem_of_remove_dups.
    by eapply list_elem_of_lookup_2. }
  assert (foldr Z.max 0 codes = Z.of_nat (length groups) - 1) as Hmax.
  { apply Z.le_antisymm.
    - apply foldr_max_le; [lia|]. eapply Forall_impl; [exact Hcodes|].
      simpl. lia.
    - apply foldr_max_ge.
      replace (Z.of_nat (length groups) - 1)
        with (Z.of_nat (length groups - 1)) by lia.
      apply Hocc. lia. }
  assert (length codes = N) as Hclen by (unfold codes; by rewrite length_map).
  assert (np_bincount codes
          = Ok (map (group_count codes) (seq 0 (length groups)))) as Hbin.
  { unfold np_bincount. rewrite decide_True
      by (eapply Forall_impl; [exact Hcodes|]; simpl; lia).
    rewrite Hmax. destruct codes; [simpl in Hclen; lia|].
    do 3 f_equal. lia. }
  exists (length groups), codes, (map (group_count codes) (seq 0 (length groups))).
  split; [|split; [exact Hbin|split]].
  - unfold _preprocess_input. fold N. rewrite decide_True by done.
    fold groups. by rewrite decide_False by lia.
  - split; try done.
    + unfold triu_indices. simpl. by rewrite !length_map.
    + unfold triu_indices. simpl. by rewrite zip_fst_snd.
    + unfold triu_indices. simpl. by rewrite length_map.
    + apply Forall_forall. intros n Hn.
      apply list_elem_of_In, in_map_iff in Hn as (i & <- & Hi).
      apply in_seq in Hi. unfold group_count.
      assert (Z.of_nat i ∈ filter (fun x => x = Z.of_nat i) codes) as Hin
        by (apply list_elem_of_filter; split; [done | apply Hocc; lia]).
      destruct (filter _ codes); [by apply elem_of_nil in Hin|].
      simpl length. lia.
  - rewrite sum_group_counts by done. by rewrite Hclen.
Qed.

Lemma permanova_inputs_canonical_witness :
  ∃ a grouping group_sizes,
    _preprocess_input two_tight_groups two_tight_labels
    = Ok ((shape two_tight_groups).1, a, grouping,
          triu_indices (shape two_tight_groups).1,
          condensed_form two_tight_groups)
    ∧ np_bincount grouping = Ok group_sizes
    ∧ canonical (shape two_tight_groups).1 a
        (triu_indices (shape two_tight_groups).1)
        (condensed_form two_tight_groups) group_sizes grouping
    ∧ sum_Z group_sizes = Z.of_nat (shape two_tight_groups).1.
Proof.
  apply (permanova_inputs_canonical two_tight_groups two_tight_labels).
  - split; [reflexivity|]. split; [reflexivity|].
    exists "A"%string, "B"%string.
    split; [apply list_elem_of_here|]. split; [|done].
    do 2 apply list_elem_of_further. apply list_elem_of_here.
  - vm_compute. lia.
Defined.

(** ** The sign of the statistic *)

(** On a canonical input, whenever the total sum of squares handed in is
    not larger than the within-group sum of squares the code computes, or
    the between-group sum of squares s_A = s_T - s_W it computes is not
    above zero, the value returned is not above zero: it is <= 0, -inf
    included, or it is nan.  With the statement for s_W <= s_T this makes
    the sign of the pseudo-F the sign of s_A, on every canonical input and
    whatever the distances hold. *)
Theorem f_stat_nonpos_when_total_le_within (N a : nat)
    (tri_idxs : list nat * list nat) (distances : list float64)
    (group_sizes : list Z) (s_T : float64) (grouping : list Z) :
  canonical N a tri_idxs distances group_sizes grouping →
  ∃ (grouping_matrix : matrix) (grouping_tri : list Z) (s_W F : float64),
    grouping_matrix_of (N, N) a grouping = Ok grouping_matrix
    ∧ getitem grouping_matrix tri_idxs = Ok grouping_tri
    ∧ within_group_ss a distances group_sizes grouping_tri = Ok s_W
    ∧ _compute_f_stat N a tri_idxs distances group_sizes s_T grouping = Ok F
    ∧ ((s_T <=? s_W)%float = true ∨ (s_T - s_W <=? 0)%float = true →
       (F <=? 0)%float = true ∨ F = nan).
Proof.
  intros Hc. pose proof (canonical_bounds _ _ _ _ _ _ Hc) as Hb.
  pose proof (canonical_s_W_clear _ _ _ _ _ _ Hc) as Hw.
  destruct (grouping_matrix_spec N a grouping) as (M & HM & _ & Hcell);
    [by rewrite (can_grouping _ _ _ _ _ _ Hc)|].
  exists M, (map (pair_code a grouping) (zip tri_idxs.1 tri_idxs.2)),
    (spec_s_W a tri_idxs distances group_sizes grouping).
  eexists. split; [done|]. split.
  { apply (getitem_spec M N); [done | apply (can_tri_len _ _ _ _ _ _ Hc) |].
    eapply Forall_impl; [exact Hb|]. simpl. lia. }
  split.
  { pose proof (canonical_sizes_length _ _ _ _ _ _ Hc).
    destruct Hc. apply within_group_ss_spec; (done || lia). }
  split; [by apply canonical_returns|].
  intros HA. apply not_positive_leb. unfold spec_pseudo_F.
  apply div_not_positive.
  - apply div_not_positive.
    + destruct HA as [HA|HA];
        [by apply leb_sub_not_positive | by apply leb_zero_not_positive].
    + apply of_int_clear. destruct Hc. lia.
  - apply div_clear; [done|]. apply of_int_clear. destruct Hc. lia.
Qed.

Lemma f_stat_nonpos_when_total_le_within_witness :
  ∃ F : float64,
    _compute_f_stat 4 2 (triu_indices 4) [2; 1; 1; 1; 1; 2]%float [2; 2]
      3%float [0; 0; 1; 1] = Ok F
    ∧ ((F <=? 0)%float = true ∨ F = nan).
Proof.
  destruct (f_stat_nonpos_when_total_le_within 4 2 (triu_indices 4)
              [2; 1; 1; 1; 1; 2]%float [2; 2] 3%float [0; 0; 1; 1])
    as (M & grouping_tri & s_W & F & HM & Htri & HW & HF & Hsign).
  - canonical_by_computation.
  - exists F. split; [exact HF|]. apply Hsign. left.
    vm_compute in HM. injection HM as <-.
    vm_compute in Htri. injection Htri as <-.
    vm_compute in HW. injection HW as <-.
    reflexivity.
Defined.

(** ** Entries that are no group code *)

Lemma for_each_ext {A S : Type} (body body' : S → A → result S) (xs : list A)
    (s : S) :
  (∀ s x, x ∈ xs → body s x = body' s x) →
  for_each body xs s = for_each body' xs s.
Proof.
  revert s. induction xs as [|x xs IH]; intros s Hb; simpl; [done|].
  rewrite (Hb s x) by apply list_elem_of_here.
  destruct (body' s x) as [s'|e]; simpl; [|done].
  apply IH. intros s0 y Hy. apply Hb. by apply list_elem_of_further.
Qed.

(** The procedure reads the grouping only through the codes 0..a-1: two
    groupings of one length that carry those codes at the same positions
    give the same result, exceptions included, whatever else they hold
    (-1, a code beyond the number of groups).  Objects with such an entry
    belong to no group. *)
Theorem f_stat_ignores_foreign_codes (N a : nat)
    (tri_idxs : list nat * list nat) (distances : list float64)
    (group_sizes : list Z) (s_T : float64) (grouping grouping' : list Z) :
  length grouping = length grouping' →
  (∀ i v, 0 ≤ v < Z.of_nat a →
          grouping !! i = Some v ↔ grouping' !! i = Some v) →
  _compute_f_stat N a tri_idxs distances group_sizes s_T grouping
  = _compute_f_stat N a tri_idxs distances group_sizes s_T grouping'.
Proof.
  intros Hlen Hsame. unfold _compute_f_stat.
  assert (grouping_matrix_of (N, N) a grouping
          = grouping_matrix_of (N, N) a grouping') as ->; [|done].
  unfold grouping_matrix_of. apply for_each_ext. intros M k Hk.
  apply list_elem_of_In, in_seq in Hk.
  assert (np_where_eq grouping (Z.of_nat k)
          = np_where_eq grouping' (Z.of_nat k)) as ->; [|done].
  unfold np_where_eq. rewrite Hlen. apply list_filter_iff.
  intros i. apply Hsame. lia.
Qed.

Lemma f_stat_ignores_foreign_codes_witness :
  _compute_f_stat 4 2 (triu_indices 4) [2; 1; 1; 1; 1; 2]%float [2; 1] 3%float
    [0; 0; 1; 5]
  = _compute_f_stat 4 2 (triu_indices 4) [2; 1; 1; 1; 1; 2]%float [2; 1] 3%float
      [0; 0; 1; -1].
Proof.
  apply (f_stat_ignores_foreign_codes 4 2 (triu_indices 4)
           [2; 1; 1; 1; 1; 2]%float [2; 1] 3%float [0; 0; 1; 5] [0; 0; 1; -1]).
  - reflexivity.
  - intros [|[|[|[|i]]]] v Hv; simpl; split; intros [= <-]; (done || lia).
Defined.

(** ** The deprecated class, from its constructor *)

(** An instance constructed over a square distance matrix runs, on every
    grouping, the same computation as the procedural interface sets up in
    lines 98-102: group sizes by [np.bincount] of the instance's grouping,
    s_T from the condensed distances over the number of objects, one group
    per label; a failing [np.bincount] fails both alike. *)
Theorem class_init_run_agrees {label : Type}
    (base : CategoricalStats.self_t label) (N : nat) (grouping : list Z) :
  shape (CategoricalStats._dm base) = (N, N) →
  (self ← PERMANOVA__init__ base; PERMANOVA._run self grouping)
  = (group_sizes ← np_bincount (CategoricalStats._grouping base);
     _compute_f_stat N (length (CategoricalStats._groups base))
       (CategoricalStats._tri_idxs base)
       (condensed_form (CategoricalStats._dm base)) group_sizes
       (sum_sq (condensed_form (CategoricalStats._dm base))
        / of_int (Z.of_nat N))%float
       grouping).
Proof.
  intros Hshape. unfold PERMANOVA__init__. rewrite Hshape.
  destruct (np_bincount (CategoricalStats._grouping base)) as [sizes|e];
    [|done].
  cbn [mbind result_bind fst].
  unfold PERMANOVA._run, PERMANOVA._compute_f_stat, _compute_f_stat,
    grouping_matrix_of, within_group_ss, f_ratio.
  cbn [PERMANOVA._dm_shape PERMANOVA._groups PERMANOVA._tri_idxs
       PERMANOVA._distances PERMANOVA._group_sizes PERMANOVA._num_groups
       PERMANOVA._s_T fst snd].
  destruct (for_each _ (seq 0 _) (minus_ones (N, N))) as [M|e]; [|done].
  cbn [mbind result_bind].
  destruct (getitem M _) as [grouping_tri|e]; done.
Qed.

Lemma class_init_run_agrees_witness :
  (self ← PERMANOVA__init__
            (CategoricalStats.Build_self two_tight_groups [0; 0; 1; 1]
               ["A"; "B"]%string (triu_indices 4));
   PERMANOVA._run self [0; 1; 1; 0])
  = (group_sizes ← np_bincount [0; 0; 1; 1];
     _compute_f_stat 4 (length ["A"; "B"]%string) (triu_indices 4)
       (condensed_form two_tight_groups) group_sizes
       (sum_sq (condensed_form two_tight_groups) / of_int (Z.of_nat 4))%float
       [0; 1; 1; 0]).
Proof.
  apply (class_init_run_agrees
           (CategoricalStats.Build_self two_tight_groups [0; 0; 1; 1]
              ["A"; "B"]%string (triu_indices 4))
           4 [0; 1; 1; 0]).
  reflexivity.
Defined.

(** ** [permanova] end to end *)

(** On a valid input, with a permutation count that is not negative and
    shuffles that reorder the grouping, [permanova] raises nothing: it
    returns the record named PERMANOVA / pseudo-F with the number of
    objects, the number of distinct labels and the permutation count it
    was given. *)
Theorem permanova_returns {label : Type} `{EqDecision label}
    (rng : nat → list Z → list Z)
    (distance_matrix : DistanceMatrix) (labels : list label) (P : Z) :
  valid_input distance_matrix labels →
  0 ≤ P →
  (∀ k g, rng k g ≡ₚ g) →
  ∃ r,
    permanova rng distance_matrix labels P = Ok r
    ∧ method_name r = "PERMANOVA"%string
    ∧ test_statistic_name r = "pseudo-F"%string
    ∧ res_sample_size r = (shape distance_matrix).1
    ∧ number_of_groups r = length (remove_dups labels)
    ∧ number_of_permutations r = P.
Proof.
  intros Hvalid HP Hrng.
  destruct (valid_input_pipeline _ _ Hvalid)
    as (a & grouping & group_sizes & Hpre & _ & Hlen & Hsizes & Hstat).
  assert (a = length (remove_dups labels)) as Ha.
  { unfold _preprocess_input in Hpre. repeat case_decide; try done.
    by injection Hpre as -> _. }
  set (s_T := (sum_sq (condensed_form distance_matrix)
               / of_int (Z.of_nat (shape distance_matrix).1))%float).
  destruct (Hstat s_T grouping Hlen) as [stat Hs].
  assert (∃ sp, _run_stat_method rng
                  (_compute_f_stat (shape distance_matrix).1 a
                     (triu_indices (shape distance_matrix).1)
                     (condensed_form distance_matrix) group_sizes s_T)
                  grouping P = Ok sp) as [sp Hrun].
  { destruct (decide (P = 0)) as [->|Hne].
    - exists (stat, NaN). unfold _run_stat_method.
      rewrite decide_False by lia. rewrite Hs. cbn [mbind result_bind].
      by rewrite decide_True.
    - destruct (run_stat_method_p_value rng _ grouping P stat ltac:(lia) Hs)
        as (perm_stats & p & _ & _ & Hrun & _); [|by eexists].
      intros k _. apply Hstat.
      by rewrite (Permutation_length (Hrng k grouping)). }
  eexists. split.
  - unfold permanova. rewrite Hpre. cbn [mbind result_bind].
    rewrite Hsizes. cbn [mbind result_bind]. fold s_T. rewrite Hrun.
    reflexivity.
  - simpl. by rewrite Ha.
Qed.

Lemma permanova_returns_witness :
  ∃ r,
    permanova rotating two_tight_groups two_tight_labels 999 = Ok r
    ∧ method_name r = "PERMANOVA"%string
    ∧ test_statistic_name r = "pseudo-F"%string
    ∧ res_sample_size r = (shape two_tight_groups).1
    ∧ number_of_groups r = length (remove_dups two_tight_labels)
    ∧ number_of_permutations r = 999.
Proof.
  apply (permanova_returns rotating two_tight_groups two_tight_labels 999).
  - split; [reflexivity|]. split; [reflexivity|].
    exists "A"%string, "B"%string.
    split; [apply list_elem_of_here|]. split; [|done].
    do 2 apply list_elem_of_further. apply list_elem_of_here.
  - lia.
  - apply rotating_Permutation.
Defined.
